(** * KeychainChunk: chunked secret storage jobs

    A shallow embedding of [OCC::KeychainChunk::WriteJob] and
    [OCC::KeychainChunk::ReadJob] (src/libsync/creds/keychainchunk.cpp).

    - The job object is a record; the two slots are written in a small
      state-and-log monad over it, statement by statement.
    - The preprocessor branches are a parameter [os] of the build.
    - The QKeychain backend is a type class; the Qt event loop that runs
      the slot connected to a finished backend job is a fuelled driver.
    - [ChunkSize], [MaxChunks] and [AbstractCredentials::keychainKey] are
      declared outside the file and are parameters here. *)

From stdpp Require Import base option list strings pretty gmap.
From Stdlib Require Import Strings.Byte.


(** ** Data *)

(** [QKeychain::Error] (qtkeychain's keychain.h). *)
Inductive Error : Set :=
  | NoError
  | EntryNotFound
  | CouldNotDeleteEntry
  | AccessDeniedByUser
  | AccessDenied
  | NoBackendAvailable
  | NotImplemented
  | OtherError.

#[global] Instance Error_eq_dec : EqDecision Error.
Proof. solve_decision. Defined.

(** The preprocessor symbols the file branches on: [Q_OS_WIN] holds on
    [Windows] only, [Q_OS_UNIX && !Q_OS_MAC] on [Linux] only. *)
Inductive OS : Set := Windows | MacOS | Linux.

Definition Q_OS_WIN (os : OS) : bool :=
  match os with Windows => true | _ => false end.

Definition Q_OS_UNIX_not_MAC (os : OS) : bool :=
  match os with Linux => true | _ => false end.

Definition QByteArray : Type := list byte.

(** The two fields of [Account] the jobs look at. *)
Record Account : Type := mkAccount {
  url : string;
  id : string
}.

(** A finished [QKeychain::Job] as the slots see it. *)
Record KJob : Type := mkKJob {
  key : string;
  error : Error;
  errorString : string;
  binaryData : QByteArray;
  insecureFallback : bool
}.

(** The members of [Job] and of its two subclasses.  [_chunkCount] is an
    [int] that a job increments at most [MaxChunks + 1] times, a [nat]
    here. *)
Record Job : Type := mkJob {
  _serviceName : string;
  _account : option Account;
  _key : string;
  _insecureFallback : bool;
  _keychainMigration : bool;
  _retryOnKeyChainError : bool;
  _error : Error;
  _errorString : string;
  _chunkCount : nat;
  _chunkBuffer : QByteArray;
  _isJobRunning : bool
}.

(** What a slot does to the outside world, in program order.  The calls
    [key()] and [deleteLater()] through the incoming job pointer carry the
    pointer, [None] being [nullptr]; a call through [nullptr] is recorded
    and the slot goes on. *)
Inductive Effect : Type :=
  | EStartWrite (service kck : string) (chunk : QByteArray) (insecure : bool)
  | EStartRead (service kck : string) (insecure : bool)
  | ESingleShot (msec : N)
  | ECallKey (incomingJob : option KJob)
  | EDeleteLater (incomingJob : option KJob)
  | EFinished.

(** ** The slot monad: the job object as state, the effects as a log *)

Definition Slot (A : Type) : Type := Job → A * Job * list Effect.

#[global] Instance Slot_ret : MRet Slot := λ A a j, (a, j, []).

#[global] Instance Slot_bind : MBind Slot := λ A B f m j,
  let '(a, j1, l1) := m j in
  let '(b, j2, l2) := f a j1 in
  (b, j2, l1 ++ l2).

Definition gets {A : Type} (f : Job → A) : Slot A := λ j, (f j, j, []).
Definition modify (f : Job → Job) : Slot unit := λ j, (tt, f j, []).
Definition emit (e : Effect) : Slot unit := λ j, (tt, j, [e]).

Definition set_retryOnKeyChainError (b : bool) (j : Job) : Job :=
  mkJob (_serviceName j) (_account j) (_key j) (_insecureFallback j)
    (_keychainMigration j) b (_error j) (_errorString j)
    (_chunkCount j) (_chunkBuffer j) (_isJobRunning j).

Definition set_error (e : Error) (j : Job) : Job :=
  mkJob (_serviceName j) (_account j) (_key j) (_insecureFallback j)
    (_keychainMigration j) (_retryOnKeyChainError j) e (_errorString j)
    (_chunkCount j) (_chunkBuffer j) (_isJobRunning j).

Definition set_errorString (s : string) (j : Job) : Job :=
  mkJob (_serviceName j) (_account j) (_key j) (_insecureFallback j)
    (_keychainMigration j) (_retryOnKeyChainError j) (_error j) s
    (_chunkCount j) (_chunkBuffer j) (_isJobRunning j).

Definition set_chunkCount (n : nat) (j : Job) : Job :=
  mkJob (_serviceName j) (_account j) (_key j) (_insecureFallback j)
    (_keychainMigration j) (_retryOnKeyChainError j) (_error j)
    (_errorString j) n (_chunkBuffer j) (_isJobRunning j).

Definition set_chunkBuffer (b : QByteArray) (j : Job) : Job :=
  mkJob (_serviceName j) (_account j) (_key j) (_insecureFallback j)
    (_keychainMigration j) (_retryOnKeyChainError j) (_error j)
    (_errorString j) (_chunkCount j) b (_isJobRunning j).

Definition set_isJobRunning (b : bool) (j : Job) : Job :=
  mkJob (_serviceName j) (_account j) (_key j) (_insecureFallback j)
    (_keychainMigration j) (_retryOnKeyChainError j) (_error j)
    (_errorString j) (_chunkCount j) (_chunkBuffer j) b.

(** [QByteArray::left] and [QByteArray::right] on lengths that are never
    negative. *)
Definition left (len : nat) (a : QByteArray) : QByteArray := take len a.
Definition right (len : nat) (a : QByteArray) : QByteArray :=
  drop (length a - len) a.

(** [QString::number] of a non-negative [int]. *)
Definition number (n : nat) : string := pretty n.

Definition isEmpty (a : QByteArray) : bool :=
  match a with [] => true | _ => false end.

Definition set_account (a : option Account) (j : Job) : Job :=
  mkJob (_serviceName j) a (_key j) (_insecureFallback j)
    (_keychainMigration j) (_retryOnKeyChainError j) (_error j)
    (_errorString j) (_chunkCount j) (_chunkBuffer j) (_isJobRunning j).

Definition set_key (k : string) (j : Job) : Job :=
  mkJob (_serviceName j) (_account j) k (_insecureFallback j)
    (_keychainMigration j) (_retryOnKeyChainError j) (_error j)
    (_errorString j) (_chunkCount j) (_chunkBuffer j) (_isJobRunning j).

Definition set_keychainMigration (b : bool) (j : Job) : Job :=
  mkJob (_serviceName j) (_account j) (_key j) (_insecureFallback j)
    b (_retryOnKeyChainError j) (_error j)
    (_errorString j) (_chunkCount j) (_chunkBuffer j) (_isJobRunning j).

(** ** The backend capability

    What a [QKeychain::WritePasswordJob] or [QKeychain::ReadPasswordJob]
    started on a (service, key) pair reports when it finishes, and what
    it does to the store. *)
Class Backend (B : Type) : Type := {
  writePassword :
    B → string → string → QByteArray → bool → B * (Error * string);
  readPassword :
    B → string → string → bool → B * (Error * string * QByteArray)
}.

(** The request a slot left with the event loop, if any: a job it
    started, or the single-shot timer. *)
Fixpoint pendingRequest (l : list Effect) : option Effect :=
  match l with
  | [] => None
  | EStartWrite s k c i :: _ => Some (EStartWrite s k c i)
  | EStartRead s k i :: _ => Some (EStartRead s k i)
  | ESingleShot t :: _ => Some (ESingleShot t)
  | _ :: l' => pendingRequest l'
  end.

(** ** The jobs *)

Section KeychainChunk.

(** The build target, and what the file takes from elsewhere:
    [KeychainChunk::ChunkSize] and [KeychainChunk::MaxChunks]
    (keychainchunk.h), [AbstractCredentials::keychainKey],
    [Theme::instance()->appName()] and
    [QCoreApplication::applicationName()]. *)
Variable os : OS.
Variables ChunkSize MaxChunks : nat.
Variable keychainKey : string → string → string → string.
Variables appName applicationName : string.

(** Modelled from the spec: the member initialisers of [Job], which
    keychainchunk.h declares.  The spec gives a job an error state, a
    running flag, an insecure-fallback flag and a one-shot retry
    permission; a fresh job has no error, is not running, and carries the
    two flags it is given. *)
Definition Job_ctor (insecure retry : bool) : Job :=
  mkJob appName None "" insecure false retry NoError "" 0 [] false.

(** [WriteJob::WriteJob(Account *, const QString &, const QByteArray &)] *)
Definition WriteJob_ctor (insecure retry : bool)
    (account : option Account) (key : string) (data : QByteArray) : Job :=
  set_chunkCount 0
    (set_chunkBuffer data
      (set_key key (set_account account (Job_ctor insecure retry)))).

(** [WriteJob::WriteJob(const QString &, const QByteArray &)] *)
Definition WriteJob_ctor_key (insecure retry : bool)
    (key : string) (data : QByteArray) : Job :=
  let j := WriteJob_ctor insecure retry None key data in
  if Q_OS_WIN os then set_key (applicationName +:+ "_" +:+ _key j) j else j.

(** [ReadJob::ReadJob(Account *, const QString &, const bool &)] *)
Definition ReadJob_ctor (insecure retry : bool)
    (account : option Account) (key : string) (keychainMigration : bool)
    : Job :=
  set_chunkBuffer []
    (set_chunkCount 0
      (set_keychainMigration keychainMigration
        (set_key key (set_account account (Job_ctor insecure retry))))).

(** [ReadJob::ReadJob(const QString &)] *)
Definition ReadJob_ctor_key (insecure retry : bool) (key : string) : Job :=
  let j := ReadJob_ctor insecure retry None key false in
  if Q_OS_WIN os then set_key (applicationName +:+ "_" +:+ _key j) j else j.

(** [WriteJob::slotWriteJobDone].  The inner block yields [true] where
    the source leaves the function by [return]. *)
Definition slotWriteJobDone (incomingJob : option KJob) : Slot unit :=
  let writeJob := incomingJob in
  (* errors? *)
  match writeJob with
  | Some w =>
      modify (set_error (error w));;
      modify (set_errorString (errorString w));;
      if decide (error w ≠ NoError) then
        emit (ECallKey writeJob);;
        modify (set_chunkBuffer [])
      else mret tt
  | None => mret tt
  end;;
  (* write a chunk if there is any in the buffer *)
  buffer ← gets _chunkBuffer;
  returned ←
    (if negb (isEmpty buffer) then
       chunk ←
         (if Q_OS_WIN os then
            let chunk := left ChunkSize buffer in
            modify (set_chunkBuffer
                      (right (length buffer - length chunk) buffer));;
            mret chunk
          else
            modify (set_chunkBuffer []);;
            mret buffer);
       index ← gets _chunkCount;
       modify (set_chunkCount (S index));;
       count ← gets _chunkCount;
       (* keep the limit *)
       if decide (MaxChunks < count) then
         emit (ECallKey writeJob);;
         emit (EDeleteLater writeJob);;
         modify (set_chunkBuffer []);;
         modify (set_isJobRunning false);;
         emit EFinished;;
         mret true
       else
         k ← gets _key;
         account ← gets _account;
         service ← gets _serviceName;
         fallback ← gets _insecureFallback;
         let keyWithIndex :=
           k +:+ (if decide (0 < index) then "." +:+ number index else "") in
         let kck :=
           match account with
           | Some a => keychainKey (url a) keyWithIndex (id a)
           | None => keyWithIndex
           end in
         emit (EStartWrite service kck chunk fallback);;
         mret false
     else
       modify (set_isJobRunning false);;
       emit EFinished;;
       mret false);
  if returned : bool then mret tt else emit (EDeleteLater writeJob).

(** [WriteJob::start] *)
Definition WriteJob_start : Slot unit :=
  modify (set_isJobRunning true);;
  slotWriteJobDone None.

(** [ReadJob::start] *)
Definition ReadJob_start : Slot unit :=
  modify (set_chunkCount 0);;
  modify (set_chunkBuffer []);;
  k ← gets _key;
  account ← gets _account;
  migration ← gets _keychainMigration;
  service ← gets _serviceName;
  fallback ← gets _insecureFallback;
  let kck :=
    match account with
    | Some a => keychainKey (url a) k (if migration : bool then "" else id a)
    | None => k
    end in
  modify (set_isJobRunning true);;
  emit (EStartRead service kck fallback).

(** [ReadJob::slotReadJobDone], with the same convention for [return]. *)
Definition slotReadJobDone (incomingJob : option KJob) : Slot unit :=
  (* Errors or next chunk? *)
  let readJob := incomingJob in
  returned ←
    match readJob with
    | Some r =>
        returned ←
          (if bool_decide (error r = NoError)
              && bool_decide (0 < length (binaryData r)) then
             buffer ← gets _chunkBuffer;
             modify (set_chunkBuffer (buffer ++ binaryData r));;
             count ← gets _chunkCount;
             modify (set_chunkCount (S count));;
             if Q_OS_WIN os then
               (* try to fetch next chunk *)
               count ← gets _chunkCount;
               if decide (count < MaxChunks) then
                 k ← gets _key;
                 account ← gets _account;
                 migration ← gets _keychainMigration;
                 service ← gets _serviceName;
                 fallback ← gets _insecureFallback;
                 let keyWithIndex := k +:+ "." +:+ number count in
                 let kck :=
                   match account with
                   | Some a =>
                       keychainKey (url a) keyWithIndex
                         (if migration : bool then "" else id a)
                   | None => keyWithIndex
                   end in
                 emit (EStartRead service kck fallback);;
                 emit (EDeleteLater readJob);;
                 mret true
               else
                 emit (ECallKey readJob);;
                 mret false
             else mret false
           else
             returned ←
               (if Q_OS_UNIX_not_MAC os then
                  if negb (insecureFallback r) then
                    retry ← gets _retryOnKeyChainError;
                    if (retry : bool)
                       && (bool_decide (error r = NoBackendAvailable)
                           || bool_decide (error r = OtherError)) then
                      emit (ESingleShot 10000%N);;
                      modify (set_retryOnKeyChainError false);;
                      emit (EDeleteLater readJob);;
                      mret true
                    else
                      modify (set_retryOnKeyChainError false);;
                      mret false
                  else mret false
                else mret false);
             if returned : bool then mret true
             else
               count ← gets _chunkCount;
               (if bool_decide (error r ≠ EntryNotFound)
                   || (bool_decide (error r = EntryNotFound)
                       && bool_decide (count = 0)) then
                  modify (set_error (error r));;
                  modify (set_errorString (errorString r));;
                  emit (ECallKey readJob)
                else mret tt);;
               mret false);
        if returned : bool then mret true
        else
          emit (EDeleteLater readJob);;
          mret false
    | None => mret false
    end;
  if returned : bool then mret tt
  else
    modify (set_isJobRunning false);;
    emit EFinished.

(** The key deriver in the words of the specification (section 4.1):
    the logical name for index 0, the name, a dot and the index above it,
    then the account scope folded in, without the account identifier in
    migration mode.  The slots build their keys inline; the theorems
    compare them with this function. *)
Definition deriveKey (logicalName : string) (accountScope : option Account)
    (migration : bool) (chunkIndex : nat) : string :=
  let name :=
    if decide (chunkIndex = 0) then logicalName
    else logicalName +:+ "." +:+ number chunkIndex in
  match accountScope with
  | Some a => keychainKey (url a) name (if migration then "" else id a)
  | None => name
  end.

(** The specification's backend-dependent [ChunkSize] (section 6): the
    cap the build splits at, or [None] where the whole buffer goes out as
    one chunk. *)
Definition payloadCap : option nat :=
  if Q_OS_WIN os then Some ChunkSize else None.

(** The size the write slot cuts at: [ChunkSize] under [Q_OS_WIN], the
    whole payload otherwise. *)
Definition cutSize (data : QByteArray) : nat :=
  if Q_OS_WIN os then ChunkSize else length data.

(** The condition under which line 294 schedules the retry. *)
Definition retryApplies (j : Job) (r : KJob) : bool :=
  Q_OS_UNIX_not_MAC os
  && negb (insecureFallback r)
  && _retryOnKeyChainError j
  && (bool_decide (error r = NoBackendAvailable)
      || bool_decide (error r = OtherError)).

(** The completions a read job may still need: one per chunk left where
    the build splits, two more while the retry is possible. *)
Definition readBudget (j : Job) : nat :=
  (if Q_OS_WIN os then MaxChunks - _chunkCount j else 0)
  + (if Q_OS_UNIX_not_MAC os && _retryOnKeyChainError j then 2 else 0)
  + 1.

Definition readsLeft (j : Job) : nat :=
  (if Q_OS_WIN os then MaxChunks - S (_chunkCount j) else 0)
  + (if Q_OS_UNIX_not_MAC os && _retryOnKeyChainError j then 1 else 0).

(** *** The event loop *)

Context {B : Type} `{!Backend B}.

(** One event: the pending backend job finishes and its [finished]
    signal runs the connected [slot], or the timer fires and runs
    [timeout]. *)
Definition deliver (slot : option KJob → Slot unit) (timeout : Slot unit)
    (req : Effect) (b : B) (j : Job) : B * Job * list Effect :=
  match req with
  | EStartWrite service kck chunk insecure =>
      let '(b', (e, es)) := writePassword b service kck chunk insecure in
      let '(_, j', effs) := slot (Some (mkKJob kck e es chunk insecure)) j in
      (b', j', effs)
  | EStartRead service kck insecure =>
      let '(b', (e, es, data)) := readPassword b service kck insecure in
      let '(_, j', effs) := slot (Some (mkKJob kck e es data insecure)) j in
      (b', j', effs)
  | ESingleShot _ =>
      let '(_, j', effs) := timeout j in
      (b, j', effs)
  | _ => (b, j, [])
  end.

(** [while (_isJobRunning) QApplication::processEvents(...)]: [last] is
    what the previous handler emitted.  [None] when the fuel runs out or
    when a running job has nothing pending that could wake it. *)
Fixpoint processEvents (slot : option KJob → Slot unit)
    (timeout : Slot unit) (fuel : nat) (b : B) (j : Job)
    (last : list Effect) : option (B * Job * list Effect) :=
  if _isJobRunning j then
    match fuel with
    | 0 => None
    | S fuel' =>
        match pendingRequest last with
        | None => None
        | Some req =>
            let '(b', j', effs) := deliver slot timeout req b j in
            match processEvents slot timeout fuel' b' j' effs with
            | Some (b'', j'', trace) => Some (b'', j'', effs ++ trace)
            | None => None
            end
        end
    end
  else Some (b, j, []).

(** [WriteJob::startAwait]: the part after the loop, then the whole. *)
Definition WriteJob_awaitResult (j : Job) : bool :=
  if decide (_error j ≠ NoError) then false else true.

Definition WriteJob_startAwait (fuel : nat) (b : B) (j : Job)
    : option (bool * B * Job * list Effect) :=
  let '(_, j1, effs) := WriteJob_start j in
  match processEvents slotWriteJobDone (mret tt) fuel b j1 effs with
  | Some (b', j', trace) =>
      Some (WriteJob_awaitResult j', b', j', effs ++ trace)
  | None => None
  end.

(** [ReadJob::startAwait], likewise. *)
Definition ReadJob_awaitResult (j : Job) : bool * Job :=
  if decide (_error j = NoError) then (true, j)
  else (false, set_chunkBuffer [] (set_chunkCount 0 j)).

Definition ReadJob_startAwait (fuel : nat) (b : B) (j : Job)
    : option (bool * B * Job * list Effect) :=
  let '(_, j1, effs) := ReadJob_start j in
  match processEvents slotReadJobDone ReadJob_start fuel b j1 effs with
  | Some (b', j', trace) =>
      let '(ok, j'') := ReadJob_awaitResult j' in
      Some (ok, b', j'', effs ++ trace)
  | None => None
  end.

End KeychainChunk.

(** ** A reference backend: an ideal store

    Entries live under (service, key); a write replaces the entry and
    reports [NoError], a read reports the entry or [EntryNotFound]. *)
Abbreviation Store := (gmap (string * string) QByteArray).

#[global] Instance Store_backend : Backend Store := {
  writePassword b service k data _ :=
    (<[(service, k) := data]> b, (NoError, ""));
  readPassword b service k _ :=
    match b !! (service, k) with
    | Some data => (b, (NoError, "", data))
    | None => (b, (EntryNotFound, "Entry not found", []))
    end
}.

(** A scripted backend for the failure paths: the store plus the
    completions the next backend jobs will report instead of touching
    the store. *)
Record Scripted : Type := mkScripted {
  store : Store;
  script : list (Error * string)
}.

#[global] Instance Scripted_backend : Backend Scripted := {
  writePassword b service k data i :=
    match script b with
    | (e, es) :: rest =>
        if decide (e = NoError)
        then (mkScripted (<[(service, k) := data]> (store b)) rest,
              (NoError, es))
        else (mkScripted (store b) rest, (e, es))
    | [] => (mkScripted (<[(service, k) := data]> (store b)) [], (NoError, ""))
    end;
  readPassword b service k i :=
    match script b with
    | (e, es) :: rest =>
        if decide (e = NoError)
        then (mkScripted (store b) rest,
              (NoError, es, default [] (store b !! (service, k))))
        else (mkScripted (store b) rest, (e, es, []))
    | [] =>
        match store b !! (service, k) with
        | Some data => (b, (NoError, "", data))
        | None => (b, (EntryNotFound, "Entry not found", []))
        end
    end
}.

(** ** Vocabulary of the theorems *)

(** The error kinds the retry block treats as transient. *)
Definition transient (e : Error) : bool :=
  bool_decide (e = NoBackendAvailable) || bool_decide (e = OtherError).

(** Chunk [i] of a payload cut every [cs] bytes, and the number of such
    chunks, [ceil (L / cs)]. *)
Definition chunkAt (cs : nat) (data : QByteArray) (i : nat) : QByteArray :=
  take cs (drop (i * cs) data).

Definition chunkTotal (cs L : nat) : nat := (L + cs - 1) / cs.

(** The backend writes a trace starts, as (key, data) pairs in order. *)
Fixpoint writesOf (l : list Effect) : list (string * QByteArray) :=
  match l with
  | [] => []
  | EStartWrite _ kck chunk _ :: l' => (kck, chunk) :: writesOf l'
  | _ :: l' => writesOf l'
  end.

(** What the error block at the top of the write slot leaves of the job
    when the incoming job reports no error. *)
Definition noted (incoming : option KJob) (j : Job) : Job :=
  match incoming with
  | Some w => set_errorString (errorString w) (set_error (error w) j)
  | None => j
  end.

Definition incomingOk (incoming : option KJob) : Prop :=
  ∀ w, incoming = Some w → error w = NoError.

(** The backend after the chunks [from .. from + count - 1] went in. *)
Definition writeChunks {B : Type} `{!Backend B} (cs : nat)
    (data : QByteArray) (service : string) (K : nat → string) (fb : bool)
    (b : B) (from count : nat) : B :=
  foldl (λ b k, (writePassword b service (K k) (chunkAt cs data k) fb).1)
    b (seq from count).

Definition writesOk {B : Type} `{!Backend B} : Prop :=
  ∀ (b : B) service kck chunk fb,
    (writePassword b service kck chunk fb).2.1 = NoError.

(** [AbstractCredentials::keychainKey] keeps apart the keys it is given
    for one account. *)
Definition keysDistinct (keychainKey : string → string → string → string)
    (account : option Account) : Prop :=
  ∀ a, account = Some a →
    ∀ k1 k2, keychainKey (url a) k1 (id a) = keychainKey (url a) k2 (id a) →
      k1 = k2.

(** The keys of the backend reads a trace starts, in order, and the
    number of timers it arms. *)
Fixpoint readsOf (l : list Effect) : list string :=
  match l with
  | [] => []
  | EStartRead _ kck _ :: l' => kck :: readsOf l'
  | _ :: l' => readsOf l'
  end.

Fixpoint timersOf (l : list Effect) : nat :=
  match l with
  | [] => 0
  | ESingleShot _ :: l' => S (timersOf l')
  | _ :: l' => timersOf l'
  end.

(** The entries a store holds under the keys [K i], [K (i+1)], ... up to
    the first key that is missing or holds no data, [todo] keys at
    most. *)
Fixpoint storedPrefix (st : Store) (service : string) (K : nat → string)
    (i todo : nat) : list QByteArray :=
  match todo with
  | 0 => []
  | S todo' =>
      match st !! (service, K i) with
      | Some data =>
          if isEmpty data then []
          else data :: storedPrefix st service K (S i) todo'
      | None => []
      end
  end.

(** ** Concrete jobs and stores *)

(** A stand-in for [AbstractCredentials::keychainKey] where a concrete
    function is needed. *)
Definition sampleKeychainKey (u user accountId : string) : string :=
  user +:+ ":" +:+ u +:+ ":" +:+ accountId.

Definition certWriter (data : QByteArray) : Job :=
  WriteJob_ctor "Nextcloud" false true None "cert" data.

Definition certReader : Job :=
  ReadJob_ctor "Nextcloud" false true None "cert" false.

(** A store left behind by an earlier, longer secret: a second chunk. *)
Definition staleStore : Store := {[ ("Nextcloud", "cert.1") := [x09] ]}.

(** A store whose second chunk is an empty entry. *)
Definition emptyChunkStore : Store :=
  <[("Nextcloud", "cert.1") := []]> {[ ("Nextcloud", "cert") := [x01] ]}.

Definition certStore : Store := {[ ("Nextcloud", "cert") := [x01] ]}.

(** A store with two chunks, a gap, and a chunk behind the gap. *)
Definition gapStore : Store :=
  <[("Nextcloud", "cert.3") := [x09]]>
    (<[("Nextcloud", "cert.1") := [x02]]>
       {[ ("Nextcloud", "cert") := [x01] ]}).

(** A backend that accepts one write and refuses the next. *)
Definition refusingBackend : Scripted :=
  mkScripted ∅ [(NoError, ""); (AccessDenied, "denied")].

(** ** Proof tools *)

Ltac slot_unfold :=
  unfold WriteJob_start, ReadJob_start;
  unfold slotWriteJobDone, slotReadJobDone;
  unfold mbind, Slot_bind, mret, Slot_ret, gets, modify, emit.

Ltac in_list :=
  simpl; repeat first [ apply list_elem_of_here | apply list_elem_of_further ].

Lemma string_app_nil_r (s : string) : s +:+ "" = s.
Proof.
  induction s as [|c s IH]; [done|].
  change (String c (s +:+ "") = String c s). by rewrite IH.
Qed.

(** The constructors without account put the application name before
    the key where [Q_OS_WIN] holds, once, and the same on both sides. *)
Lemma ctor_key_agree (os : OS) (appName applicationName : string)
    (iw rw ir rr : bool) (k : string) (data : QByteArray) :
  _key (WriteJob_ctor_key os appName applicationName iw rw k data)
    = _key (ReadJob_ctor_key os appName applicationName ir rr k)
  ∧ _key (ReadJob_ctor_key os appName applicationName ir rr k)
      = if Q_OS_WIN os then applicationName +:+ "_" +:+ k else k.
Proof. by destruct os. Qed.

(** ** Single steps of the two slots *)

Section Steps.
Variable os : OS.
Variables ChunkSize MaxChunks : nat.
Variable keychainKey : string → string → string → string.
Variable appName : string.
Context {B : Type} `{!Backend B}.

#[local] Abbreviation slotW :=
  (slotWriteJobDone os ChunkSize MaxChunks keychainKey).
#[local] Abbreviation startW :=
  (WriteJob_start os ChunkSize MaxChunks keychainKey).
#[local] Abbreviation slotR := (slotReadJobDone os MaxChunks keychainKey).
#[local] Abbreviation startR := (ReadJob_start keychainKey).
#[local] Abbreviation loopW := (processEvents slotW (mret tt)).
#[local] Abbreviation loopR := (processEvents slotR startR).

Lemma processEvents_done slot timeout fuel (b : B) j last :
  _isJobRunning j = false →
  processEvents slot timeout fuel b j last = Some (b, j, []).
Proof. intros Hr. destruct fuel; simpl; by rewrite Hr. Qed.

Lemma processEvents_step slot timeout fuel (b b' : B) j j' last req effs :
  _isJobRunning j = true →
  pendingRequest last = Some req →
  deliver slot timeout req b j = (b', j', effs) →
  processEvents slot timeout (S fuel) b j last
    = match processEvents slot timeout fuel b' j' effs with
      | Some (b'', j'', trace) => Some (b'', j'', effs ++ trace)
      | None => None
      end.
Proof. intros Hr Hp Hd. simpl. by rewrite Hr, Hp, Hd. Qed.

Lemma deliver_read slot timeout (b b' : B) j service kck insecure e es data :
  readPassword b service kck insecure = (b', (e, es, data)) →
  deliver slot timeout (EStartRead service kck insecure) b j
    = (b', (slot (Some (mkKJob kck e es data insecure)) j).1.2,
       (slot (Some (mkKJob kck e es data insecure)) j).2).
Proof.
  intros Hr. simpl. rewrite Hr.
  by destruct (slot _ j) as [[[] ?] ?].
Qed.

Lemma deliver_write slot timeout (b b' : B) j service kck chunk insecure e es :
  writePassword b service kck chunk insecure = (b', (e, es)) →
  deliver slot timeout (EStartWrite service kck chunk insecure) b j
    = (b', (slot (Some (mkKJob kck e es chunk insecure)) j).1.2,
       (slot (Some (mkKJob kck e es chunk insecure)) j).2).
Proof.
  intros Hr. simpl. rewrite Hr.
  by destruct (slot _ j) as [[[] ?] ?].
Qed.

Lemma deliver_timer slot (timeout : Slot unit) (b : B) j t :
  deliver slot timeout (ESingleShot t) b j
    = (b, (timeout j).1.2, (timeout j).2).
Proof. simpl. by destruct (timeout j) as [[[] ?] ?]. Qed.

(** C7: a chunk write that completes with an error makes the job record
    the error kind and message, drop the pending buffer, start no further
    backend job and finish; the event loop then stops at once and leaves
    the backend as the failed write left it, so [startAwait] reports
    failure. *)
Theorem C7_write_error_aborts (fuel : nat) (b : B) (j : Job) (w : KJob)
    (Herr : error w ≠ NoError) :
  ∃ j',
    slotW (Some w) j
      = (tt, j', [ECallKey (Some w); EFinished; EDeleteLater (Some w)])
    ∧ _error j' = error w
    ∧ _errorString j' = errorString w
    ∧ _chunkBuffer j' = []
    ∧ _chunkCount j' = _chunkCount j
    ∧ _isJobRunning j' = false
    ∧ pendingRequest
        [ECallKey (Some w); EFinished; EDeleteLater (Some w)] = None
    ∧ loopW fuel b j' [ECallKey (Some w); EFinished; EDeleteLater (Some w)]
        = Some (b, j', [])
    ∧ WriteJob_awaitResult j' = false.
Proof.
  eexists. split.
  - slot_unfold. simpl. rewrite decide_True by done. simpl. reflexivity.
  - simpl. repeat split; try done.
    + destruct fuel; reflexivity.
    + unfold WriteJob_awaitResult. simpl. by rewrite decide_True.
Qed.

(** C10: a write job built on the empty payload starts no backend job:
    [start] emits [finished] at once, [startAwait] returns [true] with the
    backend untouched and the error state [NoError]. *)
Theorem C10_empty_payload_no_write (fuel : nat) (b : B)
    (insecure retry : bool) (account : option Account) (k : string) :
  let j := WriteJob_ctor appName insecure retry account k [] in
  startW j = (tt, j, [EFinished; EDeleteLater None])
  ∧ pendingRequest [EFinished; EDeleteLater None] = None
  ∧ WriteJob_startAwait os ChunkSize MaxChunks keychainKey fuel b j
      = Some (true, b, j, [EFinished; EDeleteLater None])
  ∧ _error j = NoError
  ∧ _isJobRunning j = false.
Proof.
  intros j. repeat split.
  unfold WriteJob_startAwait. slot_unfold. simpl.
  destruct fuel; reflexivity.
Qed.

(** C9 fails on the code: whatever the job holds, the invocation that
    [WriteJob::start] makes with [nullptr] reaches a [deleteLater()] call
    through that null pointer. *)
Theorem C9_start_calls_deleteLater_on_null (j : Job) :
  EDeleteLater None ∈ (startW j).2.
Proof.
  slot_unfold. simpl.
  destruct (_chunkBuffer j) as [|x l]; simpl.
  - in_list.
  - destruct (Q_OS_WIN os); simpl; case_decide; in_list.
Qed.

(** A read job that is still running after its slot has recorded
    nothing: [_error] is only written on the way to [finished]. *)
Lemma slotR_running_keeps_error (incoming : option KJob) (j : Job) :
  _isJobRunning j = true →
  _isJobRunning (slotR incoming j).1.2 = true →
  _error (slotR incoming j).1.2 = _error j.
Proof.
  intros Hrun. slot_unfold. destruct incoming as [r|]; [|done].
  destruct (bool_decide (error r = NoError)
            && bool_decide (0 < length (binaryData r))); simpl.
  - destruct (Q_OS_WIN os); simpl; [|done]. by case_decide.
  - destruct (Q_OS_UNIX_not_MAC os); simpl;
      [destruct (negb (insecureFallback r)); simpl;
       [destruct (_retryOnKeyChainError j
                  && (bool_decide (error r = NoBackendAvailable)
                      || bool_decide (error r = OtherError))); simpl|]|];
      try done;
      by destruct (bool_decide (error r ≠ EntryNotFound)
                   || bool_decide (error r = EntryNotFound)
                      && bool_decide (_chunkCount j = 0)).
Qed.

Lemma startR_keeps_error (j : Job) : _error (startR j).1.2 = _error j.
Proof. reflexivity. Qed.

(** C5: a completion that reports [EntryNotFound] always ends the read
    job, keeping buffer and count; with no chunk read before, the job
    records [EntryNotFound] and [startAwait] fails; with at least one, no
    error is recorded and [startAwait] succeeds on the chunks read so
    far. *)
Theorem C5_entry_not_found (j : Job) (r : KJob)
    (Hr : error r = EntryNotFound) (Hj : _error j = NoError) :
  ∃ j' effs,
    slotR (Some r) j = (tt, j', effs)
    ∧ _isJobRunning j' = false
    ∧ pendingRequest effs = None
    ∧ EFinished ∈ effs
    ∧ _chunkBuffer j' = _chunkBuffer j
    ∧ _chunkCount j' = _chunkCount j
    ∧ (_chunkCount j = 0 →
         _error j' = EntryNotFound
         ∧ _errorString j' = errorString r
         ∧ (ReadJob_awaitResult j').1 = false)
    ∧ (0 < _chunkCount j →
         _error j' = NoError ∧ ReadJob_awaitResult j' = (true, j')).
Proof.
  slot_unfold. rewrite Hr.
  destruct (Q_OS_UNIX_not_MAC os); simpl;
    destruct (insecureFallback r); simpl;
    try (destruct (_retryOnKeyChainError j); simpl);
    destruct (_chunkCount j) as [|n] eqn:Hn; simpl; rewrite ?Hn; simpl;
    do 2 eexists; (split; [reflexivity|]); simpl;
    unfold ReadJob_awaitResult; simpl; rewrite ?Hj; simpl;
    repeat split; try done; try in_list; try lia.
Qed.

(** C6, as the code has it: a completion that is a failure or carries no
    data, is not [EntryNotFound] and is not retried, ends the job with the
    completion's error kind and message recorded.  When that kind is a
    real error, [startAwait] fails and clears the buffer; when the backend
    reported [NoError] with empty data, the recorded kind is [NoError] and
    [startAwait] succeeds with the chunks read so far. *)
Theorem C6_read_failure_recorded (fuel : nat) (b : B) (j : Job) (r : KJob)
    (Hfail : ¬ (error r = NoError ∧ 0 < length (binaryData r)))
    (Hnf : error r ≠ EntryNotFound)
    (Hretry : retryApplies os j r = false) :
  ∃ j',
    slotR (Some r) j
      = (tt, j', [ECallKey (Some r); EDeleteLater (Some r); EFinished])
    ∧ _error j' = error r
    ∧ _errorString j' = errorString r
    ∧ _isJobRunning j' = false
    ∧ _chunkBuffer j' = _chunkBuffer j
    ∧ _chunkCount j' = _chunkCount j
    ∧ loopR fuel b j'
        [ECallKey (Some r); EDeleteLater (Some r); EFinished]
        = Some (b, j', [])
    ∧ ReadJob_awaitResult j'
        = if decide (error r = NoError) then (true, j')
          else (false, set_chunkBuffer [] (set_chunkCount 0 j')).
Proof.
  assert (Hc : bool_decide (error r = NoError)
               && bool_decide (0 < length (binaryData r)) = false).
  { apply andb_false_iff.
    destruct (decide (error r = NoError)) as [He|He].
    - right. apply bool_decide_eq_false. intros Hl. apply Hfail. done.
    - left. by apply bool_decide_eq_false. }
  unfold retryApplies in Hretry.
  slot_unfold. rewrite Hc.
  rewrite (bool_decide_eq_true_2 (error r ≠ EntryNotFound)) by done.
  destruct (Q_OS_UNIX_not_MAC os); simpl in *;
    destruct (insecureFallback r); simpl in *;
    try (destruct (_retryOnKeyChainError j); simpl in *;
         try rewrite Hretry; simpl);
    eexists; (split; [reflexivity|]); simpl;
    unfold ReadJob_awaitResult; simpl;
    (repeat split; try done; [by destruct fuel]).
Qed.

(** C4, on the build that has the retry ([Q_OS_UNIX] without
    [Q_OS_MAC]): a transient failure of a job that still holds the retry
    permission and runs without insecure fallback schedules one
    single-shot timer and records nothing; the timer re-issues the read of
    chunk 0 under the same key.  If that read delivers data the job ends
    exactly as a job started on the recovered backend does; if it fails
    with a transient kind again, the kind is recorded and [startAwait]
    fails. *)
Theorem C4_retry_once_on_linux (fuel : nat) (j : Job)
    (b b1 b2 : B) (e1 e2 : Error) (s1 s2 : string) (d1 d2 : QByteArray)
    (Hfb : _insecureFallback j = false)
    (Hperm : _retryOnKeyChainError j = true)
    (Hj : _error j = NoError)
    (Ht : transient e1 = true)
    (H1 : readPassword b (_serviceName j)
            (deriveKey keychainKey (_key j) (_account j)
               (_keychainMigration j) 0) false = (b1, (e1, s1, d1)))
    (H2 : readPassword b1 (_serviceName j)
            (deriveKey keychainKey (_key j) (_account j)
               (_keychainMigration j) 0) false = (b2, (e2, s2, d2))) :
  let kck :=
    deriveKey keychainKey (_key j) (_account j) (_keychainMigration j) 0 in
  let request := EStartRead (_serviceName j) kck false in
  let r1 := mkKJob kck e1 s1 d1 false in
  let r2 := mkKJob kck e2 s2 d2 false in
  let await := ReadJob_startAwait Linux MaxChunks keychainKey in
  ∃ j1,
    startR j = (tt, j1, [request])
    ∧ _chunkCount j1 = 0
    ∧ slotReadJobDone Linux MaxChunks keychainKey (Some r1) j1
        = (tt, set_retryOnKeyChainError false j1,
           [ESingleShot 10000; EDeleteLater (Some r1)])
    ∧ startR (set_retryOnKeyChainError false j1)
        = (tt, set_retryOnKeyChainError false j1, [request])
    ∧ (e2 = NoError → d2 ≠ [] →
         ∃ jr ji,
           await (3 + fuel) b j
             = Some (true, b2, jr,
                     [request; ESingleShot 10000; EDeleteLater (Some r1);
                      request; EDeleteLater (Some r2); EFinished])
           ∧ await (1 + fuel) b1 j
               = Some (true, b2, ji,
                       [request; EDeleteLater (Some r2); EFinished])
           ∧ _error jr = _error ji
           ∧ _chunkBuffer jr = _chunkBuffer ji
           ∧ _chunkCount jr = _chunkCount ji
           ∧ _error jr = NoError
           ∧ _chunkBuffer jr = d2)
    ∧ (transient e2 = true →
         ∃ jr,
           await (3 + fuel) b j
             = Some (false, b2, jr,
                     [request; ESingleShot 10000; EDeleteLater (Some r1);
                      request; ECallKey (Some r2); EDeleteLater (Some r2);
                      EFinished])
           ∧ _error jr = e2
           ∧ _errorString jr = s2).
Proof.
  intros kck request r1 r2 await.
  assert (Hkck : kck = match _account j with
                       | Some a => keychainKey (url a) (_key j)
                                     (if _keychainMigration j then "" else id a)
                       | None => _key j
                       end) by reflexivity.
  fold kck in H1, H2. clearbody kck.
  assert (Hc1 : bool_decide (e1 = NoError)
                && bool_decide (0 < length d1) = false).
  { unfold transient in Ht. destruct e1; done. }
  assert (Hstart : ∀ j0, _key j0 = _key j → _account j0 = _account j →
            _keychainMigration j0 = _keychainMigration j →
            _serviceName j0 = _serviceName j →
            _insecureFallback j0 = false →
            startR j0
              = (tt, set_isJobRunning true
                       (set_chunkBuffer [] (set_chunkCount 0 j0)),
                 [EStartRead (_serviceName j) kck false])).
  { intros j0 Hk Ha Hm Hs Hf. slot_unfold. simpl.
    by rewrite Hk, Ha, Hm, Hs, Hf, <- Hkck. }
  set (j1 := set_isJobRunning true (set_chunkBuffer [] (set_chunkCount 0 j))).
  assert (Hretry : slotReadJobDone Linux MaxChunks keychainKey
                     (Some (mkKJob kck e1 s1 d1 false)) j1
            = (tt, set_retryOnKeyChainError false j1,
               [ESingleShot 10000;
                EDeleteLater (Some (mkKJob kck e1 s1 d1 false))])).
  { slot_unfold. simpl. rewrite Hc1. simpl. rewrite Hperm. simpl.
    unfold transient in Ht. rewrite Ht. reflexivity. }
  assert (Hloop : ∀ fuel' j0, _key j0 = _key j → _account j0 = _account j →
            _keychainMigration j0 = _keychainMigration j →
            _serviceName j0 = _serviceName j →
            _insecureFallback j0 = false →
            _retryOnKeyChainError j0 = true →
            processEvents (slotReadJobDone Linux MaxChunks keychainKey) startR
              (S (S fuel')) b
              (set_isJobRunning true (set_chunkBuffer [] (set_chunkCount 0 j0)))
              [EStartRead (_serviceName j) kck false]
            = match processEvents
                      (slotReadJobDone Linux MaxChunks keychainKey) startR
                      fuel' b1
                      (set_isJobRunning true
                         (set_chunkBuffer []
                            (set_chunkCount 0
                               (set_retryOnKeyChainError false
                                  (set_isJobRunning true
                                     (set_chunkBuffer []
                                        (set_chunkCount 0 j0)))))))
                      [EStartRead (_serviceName j) kck false] with
              | Some (b'', j'', trace) =>
                  Some (b'', j'',
                        [ESingleShot 10000;
                         EDeleteLater (Some (mkKJob kck e1 s1 d1 false));
                         EStartRead (_serviceName j) kck false] ++ trace)
              | None => None
              end).
  { intros fuel' j0 Hk Ha Hm Hs Hf Hp.
    erewrite processEvents_step;
      [| reflexivity | reflexivity | by apply deliver_read ].
    assert (Hr0 : slotReadJobDone Linux MaxChunks keychainKey
                     (Some (mkKJob kck e1 s1 d1 false))
                     (set_isJobRunning true
                        (set_chunkBuffer [] (set_chunkCount 0 j0)))
            = (tt, set_retryOnKeyChainError false
                     (set_isJobRunning true
                        (set_chunkBuffer [] (set_chunkCount 0 j0))),
               [ESingleShot 10000;
                EDeleteLater (Some (mkKJob kck e1 s1 d1 false))])).
    { slot_unfold. simpl. rewrite Hc1. simpl. rewrite Hp. simpl.
      unfold transient in Ht. rewrite Ht. reflexivity. }
    rewrite Hr0. cbn [fst snd].
    erewrite processEvents_step;
      [| reflexivity | reflexivity | apply deliver_timer ].
    rewrite Hstart by done. cbn [fst snd].
    destruct (processEvents _ _ fuel' _ _ _) as [[[? ?] ?]|]; reflexivity. }
  exists j1. split; [|split; [|split; [|split; [|split]]]].
  - by apply Hstart.
  - reflexivity.
  - exact Hretry.
  - by rewrite Hstart.
  - intros -> Hd2.
    assert (Hc2 : bool_decide (0 < length d2) = true).
    { apply bool_decide_eq_true. destruct d2; [done|simpl; lia]. }
    assert (Hok : ∀ j0, _isJobRunning j0 = true → _insecureFallback j0 = false →
              slotReadJobDone Linux MaxChunks keychainKey
                (Some (mkKJob kck NoError s2 d2 false)) j0
              = (tt, set_isJobRunning false
                       (set_chunkCount (S (_chunkCount j0))
                          (set_chunkBuffer (_chunkBuffer j0 ++ d2) j0)),
                 [EDeleteLater (Some (mkKJob kck NoError s2 d2 false));
                  EFinished])).
    { intros j0 _ _. slot_unfold. simpl. rewrite Hc2. reflexivity. }
    do 2 eexists. split; [|split].
    + unfold await, ReadJob_startAwait. rewrite Hstart by done.
      change (3 + fuel) with (S (S (S fuel))). rewrite Hloop by done.
      erewrite processEvents_step;
        [| reflexivity | reflexivity | by apply deliver_read ].
      rewrite Hok by done. cbn [fst snd].
      rewrite processEvents_done by done.
      unfold ReadJob_awaitResult. simpl. rewrite Hj. simpl. reflexivity.
    + unfold await, ReadJob_startAwait. rewrite Hstart by done.
      change (1 + fuel) with (S fuel).
      erewrite processEvents_step;
        [| reflexivity | reflexivity | by apply deliver_read ].
      rewrite Hok by done. cbn [fst snd].
      rewrite processEvents_done by done.
      unfold ReadJob_awaitResult. simpl. rewrite Hj. simpl. reflexivity.
    + simpl. done.
  - intros Ht2.
    assert (Hc2 : bool_decide (e2 = NoError)
                  && bool_decide (0 < length d2) = false).
    { unfold transient in Ht2. destruct e2; done. }
    assert (Hne : bool_decide (e2 ≠ EntryNotFound) = true).
    { unfold transient in Ht2. destruct e2; done. }
    assert (Hno : e2 ≠ NoError).
    { unfold transient in Ht2. destruct e2; done. }
    eexists. split.
    + unfold await, ReadJob_startAwait. rewrite Hstart by done.
      change (3 + fuel) with (S (S (S fuel))). rewrite Hloop by done.
      erewrite processEvents_step;
        [| reflexivity | reflexivity | by apply deliver_read ].
      assert (Hr2 : ∀ j0, _retryOnKeyChainError j0 = false →
                slotReadJobDone Linux MaxChunks keychainKey
                  (Some (mkKJob kck e2 s2 d2 false)) j0
                = (tt, set_isJobRunning false
                         (set_errorString s2
                            (set_error e2
                               (set_retryOnKeyChainError false j0))),
                   [ECallKey (Some (mkKJob kck e2 s2 d2 false));
                    EDeleteLater (Some (mkKJob kck e2 s2 d2 false));
                    EFinished])).
      { intros j0 Hp0. slot_unfold. simpl. rewrite Hc2. simpl.
        rewrite Hp0. simpl. rewrite Hne. reflexivity. }
      rewrite Hr2 by done. cbn [fst snd].
      rewrite processEvents_done by done.
      unfold ReadJob_awaitResult. simpl. rewrite decide_False by done.
      reflexivity.
    + simpl. done.
Qed.

(** C8: the key each slot hands to the backend is [deriveKey] of the
    job's name, account and chunk index: the write slot in normal mode,
    [ReadJob::start] at index 0 and the read slot at the next index in
    the job's migration mode.  Without an account that key is the name at
    index 0 and name, dot, index above it; with an account it is
    [keychainKey] of the URL and that string, with the empty identifier in
    migration mode and the account's identifier otherwise. *)
Theorem C8_storage_keys (jw jr : Job) (incoming : option KJob) (r : KJob)
    (Hin : ∀ w, incoming = Some w → error w = NoError)
    (Hbuf : _chunkBuffer jw ≠ [])
    (Hlim : _chunkCount jw < MaxChunks)
    (Hr : error r = NoError)
    (Hd : binaryData r ≠ [])
    (Hnext : S (_chunkCount jr) < MaxChunks) :
  (∃ chunk,
     pendingRequest (slotW incoming jw).2
       = Some (EStartWrite (_serviceName jw)
                 (deriveKey keychainKey (_key jw) (_account jw) false
                    (_chunkCount jw))
                 chunk (_insecureFallback jw)))
  ∧ pendingRequest (startR jr).2
      = Some (EStartRead (_serviceName jr)
                (deriveKey keychainKey (_key jr) (_account jr)
                   (_keychainMigration jr) 0)
                (_insecureFallback jr))
  ∧ pendingRequest
      (slotReadJobDone Windows MaxChunks keychainKey (Some r) jr).2
      = Some (EStartRead (_serviceName jr)
                (deriveKey keychainKey (_key jr) (_account jr)
                   (_keychainMigration jr) (S (_chunkCount jr)))
                (_insecureFallback jr))
  ∧ (∀ name migration,
       deriveKey keychainKey name None migration 0 = name)
  ∧ (∀ name migration i, 0 < i →
       deriveKey keychainKey name None migration i
         = name +:+ "." +:+ number i)
  ∧ (∀ name a i,
       deriveKey keychainKey name (Some a) true i
         = keychainKey (url a) (deriveKey keychainKey name None true i) "")
  ∧ (∀ name a i,
       deriveKey keychainKey name (Some a) false i
         = keychainKey (url a) (deriveKey keychainKey name None false i)
             (id a)).
Proof.
  split; [|split; [|split; [|split; [|split; [|split]]]]].
  - assert (Hs : ∃ j0, (match incoming with
              | Some w =>
                  modify (set_error (error w));;
                  modify (set_errorString (errorString w));;
                  (if decide (error w ≠ NoError)
                   then emit (ECallKey incoming);; modify (set_chunkBuffer [])
                   else mret ())
              | None => mret ()
              end) jw = (tt, j0, [])
              ∧ _chunkBuffer j0 = _chunkBuffer jw
              ∧ _chunkCount j0 = _chunkCount jw ∧ _key j0 = _key jw
              ∧ _account j0 = _account jw
              ∧ _serviceName j0 = _serviceName jw
              ∧ _insecureFallback j0 = _insecureFallback jw).
    { destruct incoming as [w|].
      - specialize (Hin w eq_refl).
        unfold mbind, Slot_bind, mret, Slot_ret, modify, emit.
        rewrite decide_False by (by intros ?). eexists. split; [reflexivity|].
        done.
      - eexists. split; [reflexivity|]. done. }
    destruct Hs as (j0 & Hs & Hb0 & Hc0 & Hk0 & Ha0 & Hs0 & Hf0).
    unfold slotWriteJobDone.
    unfold mbind at 1. unfold Slot_bind at 1. rewrite Hs.
    unfold mbind, Slot_bind, mret, Slot_ret, gets, modify, emit.
    rewrite Hb0. destruct (_chunkBuffer jw) as [|x l] eqn:Hb; [done|].
    unfold deriveKey.
    destruct (Q_OS_WIN os); simpl; rewrite ?Hc0;
      (rewrite decide_False by lia); simpl;
      rewrite ?Hk0, ?Ha0, ?Hs0, ?Hf0, ?Hc0;
      (destruct (_chunkCount jw) as [|n]; simpl;
       [rewrite string_app_nil_r|]); eexists; reflexivity.
  - slot_unfold. simpl. reflexivity.
  - slot_unfold. simpl. rewrite Hr.
    rewrite (bool_decide_eq_true_2 (0 < length (binaryData r)))
      by (destruct (binaryData r); [done|simpl; lia]).
    simpl. rewrite decide_True by done. simpl. reflexivity.
  - reflexivity.
  - intros name migration i Hi. unfold deriveKey.
    by rewrite decide_False by lia.
  - reflexivity.
  - reflexivity.
Qed.

End Steps.

(** ** The chunk chains *)

Lemma chunkTotal_le (cs L k : nat) :
  0 < cs → chunkTotal cs L ≤ k ↔ L ≤ k * cs.
Proof.
  intros Hcs. unfold chunkTotal.
  pose proof (Nat.div_mod_eq (L + cs - 1) cs) as Hdm.
  pose proof (Nat.mod_upper_bound (L + cs - 1) cs ltac:(lia)) as Hm.
  split; intros Hk; nia.
Qed.

Lemma chunkTotal_whole (L : nat) : 0 < L → chunkTotal L L = 1.
Proof.
  intros HL. apply Nat.le_antisymm.
  - apply chunkTotal_le; lia.
  - destruct (chunkTotal L L) eqn:E; [|lia].
    assert (H0 : chunkTotal L L ≤ 0) by lia.
    apply chunkTotal_le in H0; lia.
Qed.

Lemma keyWithIndex_eq (k : string) (c : nat) :
  k +:+ (if decide (0 < c) then "." +:+ number c else "")
    = if decide (c = 0) then k else k +:+ "." +:+ number c.
Proof.
  destruct (decide (c = 0)) as [->|Hc].
  - rewrite decide_False by lia. apply string_app_nil_r.
  - by rewrite decide_True by lia.
Qed.

Lemma isEmpty_false (l : QByteArray) : l ≠ [] → isEmpty l = false.
Proof. by destruct l. Qed.

Section Chains.
Variable os : OS.
Variables ChunkSize MaxChunks : nat.
Variable keychainKey : string → string → string → string.
Context {B : Type} `{!Backend B}.

#[local] Abbreviation slotW :=
  (slotWriteJobDone os ChunkSize MaxChunks keychainKey).
#[local] Abbreviation startW :=
  (WriteJob_start os ChunkSize MaxChunks keychainKey).
#[local] Abbreviation slotR := (slotReadJobDone os MaxChunks keychainKey).
#[local] Abbreviation startR := (ReadJob_start keychainKey).
#[local] Abbreviation loopW := (processEvents slotW (mret tt)).
#[local] Abbreviation loopR := (processEvents slotR startR).

Lemma slotW_finish incoming j :
  incomingOk incoming → _chunkBuffer j = [] →
  slotW incoming j
    = (tt, set_isJobRunning false (noted incoming j),
       [EFinished; EDeleteLater incoming]).
Proof.
  intros Hin Hb. slot_unfold.
  destruct incoming as [w|]; simpl.
  - rewrite (Hin w eq_refl). simpl. rewrite Hb. reflexivity.
  - rewrite Hb. reflexivity.
Qed.

Lemma slotW_split data i incoming j :
  0 < cutSize os ChunkSize data →
  incomingOk incoming →
  _chunkBuffer j = drop (i * cutSize os ChunkSize data) data →
  (Q_OS_WIN os = false → i = 0) →
  _chunkBuffer j ≠ [] →
  ∃ j',
    slotW incoming j
      = (tt, j',
         if decide (MaxChunks < S (_chunkCount j))
         then [ECallKey incoming; EDeleteLater incoming; EFinished]
         else [EStartWrite (_serviceName j)
                 (deriveKey keychainKey (_key j) (_account j) false
                    (_chunkCount j))
                 (chunkAt (cutSize os ChunkSize data) data i) (_insecureFallback j);
               EDeleteLater incoming])
    ∧ _chunkCount j' = S (_chunkCount j)
    ∧ _key j' = _key j ∧ _account j' = _account j
    ∧ _serviceName j' = _serviceName j
    ∧ _insecureFallback j' = _insecureFallback j
    ∧ _error j' = _error (noted incoming j)
    ∧ (if decide (MaxChunks < S (_chunkCount j))
       then _isJobRunning j' = false ∧ _chunkBuffer j' = []
       else _isJobRunning j' = _isJobRunning j
            ∧ _chunkBuffer j' = drop (S i * cutSize os ChunkSize data) data).
Proof.
  intros Hcs Hin Hb Hos Hne.
  assert (Hs : (match incoming with
            | Some w =>
                modify (set_error (error w));;
                modify (set_errorString (errorString w));;
                (if decide (error w ≠ NoError)
                 then emit (ECallKey incoming);; modify (set_chunkBuffer [])
                 else mret ())
            | None => mret ()
            end) j = (tt, noted incoming j, [])).
  { destruct incoming as [w|]; [|done].
    specialize (Hin w eq_refl).
    unfold mbind, Slot_bind, mret, Slot_ret, modify, emit.
    by rewrite decide_False by (by intros ?). }
  assert (Hnb : _chunkBuffer (noted incoming j) = _chunkBuffer j)
    by (by destruct incoming).
  assert (Hnc : _chunkCount (noted incoming j) = _chunkCount j)
    by (by destruct incoming).
  assert (Hnk : _key (noted incoming j) = _key j) by (by destruct incoming).
  assert (Hna : _account (noted incoming j) = _account j)
    by (by destruct incoming).
  assert (Hns : _serviceName (noted incoming j) = _serviceName j)
    by (by destruct incoming).
  assert (Hnf : _insecureFallback (noted incoming j) = _insecureFallback j)
    by (by destruct incoming).
  assert (Hnr : _isJobRunning (noted incoming j) = _isJobRunning j)
    by (by destruct incoming).
  assert (Hchunk :
    (if Q_OS_WIN os then left ChunkSize (_chunkBuffer j) else _chunkBuffer j)
      = chunkAt (cutSize os ChunkSize data) data i
    ∧ (if Q_OS_WIN os
       then right (length (_chunkBuffer j)
                   - length (left ChunkSize (_chunkBuffer j)))
              (_chunkBuffer j)
       else [])
      = drop (S i * cutSize os ChunkSize data) data).
  { unfold chunkAt, cutSize in *. destruct (Q_OS_WIN os) eqn:Hw.
    - split; [by rewrite Hb|].
      unfold right, left.
      replace (S i * ChunkSize) with (i * ChunkSize + ChunkSize) by lia.
      rewrite <- drop_drop, <- Hb, length_take.
      destruct (decide (ChunkSize ≤ length (_chunkBuffer j))) as [Hle|Hgt].
      + f_equal. lia.
      + rewrite !drop_ge; [done|lia|lia].
    - rewrite (Hos eq_refl) in *. simpl in *. rewrite drop_0 in Hb.
      rewrite Hb. split; [by rewrite take_ge|].
      rewrite drop_ge; [done|lia]. }
  unfold slotWriteJobDone.
  unfold mbind at 1. unfold Slot_bind at 1. rewrite Hs.
  unfold mbind, Slot_bind, mret, Slot_ret, gets, modify, emit.
  rewrite Hnb, (isEmpty_false _ Hne). simpl negb. cbv iota.
  destruct (Q_OS_WIN os) eqn:Hw; destruct Hchunk as [Hck Hrest];
    try rewrite Hck in Hrest; simpl; rewrite ?Hnc;
    (destruct (decide (MaxChunks < S (_chunkCount j))) as [Hlim|Hlim]; simpl;
     rewrite ?Hnk, ?Hna, ?Hns, ?Hnf, ?Hnc;
     [ eexists; split; [reflexivity|]; simpl;
       rewrite ?Hnk, ?Hna, ?Hns, ?Hnf, ?Hnc; by destruct incoming
     | ]).
  - eexists. split.
    + rewrite Hck. unfold deriveKey. rewrite keyWithIndex_eq. reflexivity.
    + simpl. rewrite ?Hnk, ?Hna, ?Hns, ?Hnf, ?Hnc, ?Hnr, ?Hrest.
      by destruct incoming.
  - eexists. split.
    + rewrite Hck. unfold deriveKey. rewrite keyWithIndex_eq. reflexivity.
    + simpl. rewrite ?Hnk, ?Hna, ?Hns, ?Hnf, ?Hnc, ?Hnr, ?Hrest.
      by destruct incoming.
Qed.

Lemma chunk_pending (data : QByteArray) (cs i : nat) :
  0 < cs → drop (i * cs) data ≠ [] → i < chunkTotal cs (length data).
Proof.
  intros Hcs Hne. apply Nat.nle_gt. intros Hle.
  apply chunkTotal_le in Hle; [|done].
  apply Hne. by apply drop_ge.
Qed.

Lemma chunk_done (data : QByteArray) (cs i : nat) :
  0 < cs → drop (i * cs) data = [] → chunkTotal cs (length data) ≤ i.
Proof.
  intros Hcs He. apply chunkTotal_le; [done|]. by apply drop_nil_inv.
Qed.

Lemma write_loop (data : QByteArray) (k service : string)
    (account : option Account) (fb : bool) :
  let cs := cutSize os ChunkSize data in
  let n := chunkTotal cs (length data) `min` MaxChunks in
  let K := deriveKey keychainKey k account false in
  0 < cs → writesOk →
  ∀ fuel i b j last,
    _isJobRunning j = true → _chunkCount j = S i →
    _chunkBuffer j = drop (S i * cs) data →
    _key j = k → _account j = account → _serviceName j = service →
    _insecureFallback j = fb →
    pendingRequest last
      = Some (EStartWrite service (K i) (chunkAt cs data i) fb) →
    i < n → MaxChunks - i ≤ fuel →
    ∃ b' j' trace,
      loopW fuel b j last = Some (b', j', trace)
      ∧ writesOf trace
          = (λ c, (K c, chunkAt cs data c)) <$> seq (S i) (n - S i)
      ∧ b' = writeChunks cs data service K fb b i (n - i)
      ∧ _error j' = NoError
      ∧ _isJobRunning j' = false
      ∧ _chunkBuffer j' = [].
Proof.
  intros cs n K Hcs Hok fuel.
  induction fuel as [|fuel IH];
    intros i b j last Hrun Hcnt Hbuf Hk Ha Hs Hf Hpend Hi Hfuel; [lia|].
  destruct (writePassword b service (K i) (chunkAt cs data i) fb)
    as [b1 [e es]] eqn:Hwp.
  assert (He : e = NoError).
  { pose proof (Hok b service (K i) (chunkAt cs data i) fb) as H0.
    by rewrite Hwp in H0. }
  subst e.
  set (w := mkKJob (K i) NoError es (chunkAt cs data i) fb).
  assert (Hw : incomingOk (Some w)) by (by intros ? [= <-]).
  erewrite processEvents_step; [| exact Hrun | exact Hpend
                                | by apply deliver_write ].
  fold w.
  assert (Hone : writeChunks cs data service K fb b i 1 = b1).
  { unfold writeChunks. simpl. by rewrite Hwp. }
  destruct (decide (_chunkBuffer j = [])) as [Hemp|Hne].
  - rewrite slotW_finish by done. cbn [fst snd].
    rewrite processEvents_done by done.
    assert (Hn : n = S i).
    { rewrite Hbuf in Hemp. apply chunk_done in Hemp; [|done]. lia. }
    do 3 eexists. split; [reflexivity|].
    rewrite Hn, Nat.sub_diag.
    replace (S i - i) with 1 by lia. rewrite Hone.
    repeat split; done.
  - destruct (slotW_split data (S i) (Some w) j) as
      (j' & Hslot & Hc' & Hk' & Ha' & Hs' & Hf' & He' & Hlim); try done.
    { intros Hwin. exfalso. apply Hne. rewrite Hbuf. apply drop_ge.
      unfold cs, cutSize. rewrite Hwin. lia. }
    rewrite Hslot. cbn [fst snd].
    rewrite Hcnt, Hk, Ha, Hs, Hf in *.
    destruct (decide (MaxChunks < S (S i))) as [Hmax|Hmax].
    + destruct Hlim as [Hr' Hb'].
      rewrite processEvents_done by done.
      assert (Hn : n = S i) by lia.
      do 3 eexists. split; [reflexivity|].
      rewrite Hn, Nat.sub_diag.
      replace (S i - i) with 1 by lia. rewrite Hone.
      repeat split; done.
    + destruct Hlim as [Hr' Hb'].
      assert (Hi' : S i < n).
      { rewrite Hbuf in Hne. apply chunk_pending in Hne; [|done]. lia. }
      destruct (IH (S i) b1 j'
                  [EStartWrite service (K (S i)) (chunkAt cs data (S i)) fb;
                   EDeleteLater (Some w)])
        as (b' & j'' & tr & Hloop & Hwr & Hb'' & Herr & Hrun' & Hbuf');
        try done; [congruence | lia |].
      unfold K, cs in Hloop. rewrite Hloop.
      do 3 eexists. split; [reflexivity|].
      split; [|split; [|done]].
      * simpl. rewrite Hwr.
        replace (n - S i) with (S (n - S (S i))) by lia. reflexivity.
      * rewrite Hb''. unfold writeChunks.
        replace (n - i) with (S (n - S i)) by lia.
        simpl. by rewrite Hwp.
Qed.

Lemma startW_eq (j : Job) :
  startW j = slotW None (set_isJobRunning true j).
Proof.
  unfold WriteJob_start, mbind, Slot_bind, modify.
  by destruct (slotW None _) as [[[] ?] ?].
Qed.

Lemma cutSize_pos (data : QByteArray) :
  0 < ChunkSize → data ≠ [] → 0 < cutSize os ChunkSize data.
Proof.
  intros Hcs Hne. unfold cutSize. destruct (Q_OS_WIN os); [done|].
  destruct data; [done|simpl; lia].
Qed.

Lemma chunkTotal_empty (cs : nat) : chunkTotal cs 0 = 0.
Proof.
  unfold chunkTotal. destruct cs as [|cs]; [done|].
  apply Nat.div_small. lia.
Qed.

(** A whole write job on a backend that reports no error: it ends with
    [startAwait] returning [true], having started
    [min (ceil (L / cs)) MaxChunks] writes, chunk [c] under key [c], in
    order. *)
Lemma write_run (fuel : nat) (b : B) (j : Job) :
  let data := _chunkBuffer j in
  let cs := cutSize os ChunkSize data in
  let n := chunkTotal cs (length data) `min` MaxChunks in
  let K := deriveKey keychainKey (_key j) (_account j) false in
  0 < ChunkSize → writesOk →
  _chunkCount j = 0 → _error j = NoError → MaxChunks ≤ fuel →
  ∃ b' j' trace,
    WriteJob_startAwait os ChunkSize MaxChunks keychainKey fuel b j
      = Some (true, b', j', trace)
    ∧ writesOf trace = (λ c, (K c, chunkAt cs data c)) <$> seq 0 n
    ∧ b' = writeChunks cs data (_serviceName j) K (_insecureFallback j) b 0 n
    ∧ _error j' = NoError
    ∧ _isJobRunning j' = false
    ∧ _chunkBuffer j' = [].
Proof.
  intros data cs n K Hcs Hok Hcnt Herr Hfuel.
  unfold WriteJob_startAwait. rewrite startW_eq.
  set (j0 := set_isJobRunning true j).
  assert (Hres : ∀ j', _error j' = NoError → WriteJob_awaitResult j' = true).
  { intros j' He. unfold WriteJob_awaitResult. by rewrite He. }
  destruct (decide (data = [])) as [Hemp|Hne].
  - rewrite slotW_finish; [|by intros ?|done].
    rewrite processEvents_done by done.
    assert (Hn : n = 0).
    { unfold n. rewrite Hemp. simpl. rewrite chunkTotal_empty. lia. }
    rewrite Hn. do 3 eexists. split; [by rewrite Hres|].
    repeat split; done.
  - assert (Hcs' : 0 < cs) by (by apply cutSize_pos).
    destruct (slotW_split data 0 None j0) as
      (j' & Hslot & Hc' & Hk' & Ha' & Hs' & Hf' & He' & Hlim);
      try done.
    rewrite Hslot. simpl in Hc', Hk', Ha', Hs', Hf', He', Hlim. simpl.
    rewrite Hcnt in *.
    destruct (decide (MaxChunks < 1)) as [Hmax|Hmax].
    + destruct Hlim as [Hr' Hb'].
      rewrite processEvents_done by done.
      assert (Hn : n = 0) by lia.
      rewrite Hn. do 3 eexists. split; [rewrite Hres; [done|congruence]|].
      repeat split; try done. congruence.
    + destruct Hlim as [Hr' Hb'].
      assert (H0 : 0 < n).
      { assert (H1 : drop (0 * cs) data ≠ []) by done.
        apply chunk_pending in H1; [|done]. lia. }
      destruct (write_loop data (_key j) (_serviceName j) (_account j)
                  (_insecureFallback j) Hcs' Hok fuel 0 b j'
                  [EStartWrite (_serviceName j) (K 0) (chunkAt cs data 0)
                     (_insecureFallback j); EDeleteLater None])
        as (b' & j'' & tr & Hloop & Hwr & Hb'' & Herr' & Hrun' & Hbuf');
        try done; [lia|].
      unfold K, cs in Hloop. rewrite Hloop.
      do 3 eexists. split; [by rewrite Hres|].
      split; [|split; [|done]].
      * transitivity ((K 0, chunkAt cs data 0) :: writesOf tr);
          [reflexivity|].
        rewrite Hwr. fold cs n K.
        destruct n as [|n']; [lia|]. simpl. by rewrite Nat.sub_0_r.
      * rewrite Hb''. fold cs n K. f_equal. lia.
Qed.

End Chains.

(** ** Chains over the ideal store *)

Lemma Store_writesOk : writesOk (B := Store).
Proof. by intros b service kck chunk fb. Qed.

Lemma Store_writeChunks_S (cs : nat) (data : QByteArray) (service : string)
    (K : nat → string) (fb : bool) (st : Store) (n : nat) :
  writeChunks cs data service K fb st 0 (S n)
    = <[(service, K n) := chunkAt cs data n]>
        (writeChunks cs data service K fb st 0 n).
Proof. unfold writeChunks. by rewrite seq_S, foldl_app. Qed.

Lemma Store_chunks_lookup (cs : nat) (data : QByteArray) (service : string)
    (K : nat → string) (fb : bool) (st : Store) (n c : nat) :
  (∀ a b, a < n → b < n → K a = K b → a = b) → c < n →
  writeChunks cs data service K fb st 0 n !! (service, K c)
    = Some (chunkAt cs data c).
Proof.
  induction n as [|n IH]; intros Hinj Hc; [lia|].
  rewrite Store_writeChunks_S.
  destruct (decide (c = n)) as [->|Hne].
  - apply lookup_insert_eq.
  - rewrite lookup_insert_ne.
    + apply IH; [|lia]. intros a b Ha Hb. apply Hinj; lia.
    + intros [= Heq]. apply Hne. symmetry. apply Hinj; [lia|lia|done].
Qed.

Lemma Store_chunks_other (cs : nat) (data : QByteArray) (service : string)
    (K : nat → string) (fb : bool) (st : Store) (n : nat) (kck : string) :
  (∀ c, c < n → K c ≠ kck) →
  writeChunks cs data service K fb st 0 n !! (service, kck)
    = st !! (service, kck).
Proof.
  induction n as [|n IH]; intros Hne; [done|].
  rewrite Store_writeChunks_S, lookup_insert_ne.
  - apply IH. intros c Hc. apply Hne. lia.
  - intros [= Heq]. by apply (Hne n); [lia|].
Qed.

Lemma chunkAt_nonempty (cs : nat) (data : QByteArray) (c : nat) :
  0 < cs → c < chunkTotal cs (length data) → chunkAt cs data c ≠ [].
Proof.
  intros Hcs Hc He. unfold chunkAt in He.
  apply take_nil_inv in He as [He|He]; [lia|].
  apply chunk_done in He; [lia|done].
Qed.

Lemma take_chunks (cs : nat) (data : QByteArray) (c : nat) :
  take (c * cs) data ++ chunkAt cs data c = take (S c * cs) data.
Proof.
  unfold chunkAt. rewrite take_take_drop. f_equal. lia.
Qed.

Lemma take_all_chunks (cs mc : nat) (data : QByteArray) :
  0 < cs →
  take ((chunkTotal cs (length data) `min` mc) * cs) data
    = take (cs * mc) data.
Proof.
  intros Hcs.
  destruct (decide (chunkTotal cs (length data) ≤ mc)) as [Hle|Hgt].
  - rewrite Nat.min_l by done.
    pose proof (proj1 (chunkTotal_le cs (length data) _ Hcs) (le_n _)).
    pose proof (proj1 (chunkTotal_le cs (length data) _ Hcs) Hle).
    rewrite !take_ge; [done|lia|lia].
  - rewrite Nat.min_r by lia. f_equal. lia.
Qed.

Section StoreChains.
Variable os : OS.
Variables ChunkSize MaxChunks : nat.
Variable keychainKey : string → string → string → string.

#[local] Abbreviation slotR := (slotReadJobDone os MaxChunks keychainKey).
#[local] Abbreviation startR := (ReadJob_start keychainKey).
#[local] Abbreviation loopR := (processEvents (B := Store) slotR startR).

Lemma startR_eq (j : Job) :
  startR j
    = (tt, set_isJobRunning true (set_chunkBuffer [] (set_chunkCount 0 j)),
       [EStartRead (_serviceName j)
          (deriveKey keychainKey (_key j) (_account j)
             (_keychainMigration j) 0)
          (_insecureFallback j)]).
Proof. reflexivity. Qed.

Lemma slotR_success (j : Job) (r : KJob) :
  error r = NoError → binaryData r ≠ [] →
  slotR (Some r) j
    = let j1 := set_chunkCount (S (_chunkCount j))
                  (set_chunkBuffer (_chunkBuffer j ++ binaryData r) j) in
      if Q_OS_WIN os then
        if decide (S (_chunkCount j) < MaxChunks) then
          (tt, j1,
           [EStartRead (_serviceName j)
              (deriveKey keychainKey (_key j) (_account j)
                 (_keychainMigration j) (S (_chunkCount j)))
              (_insecureFallback j);
            EDeleteLater (Some r)])
        else
          (tt, set_isJobRunning false j1,
           [ECallKey (Some r); EDeleteLater (Some r); EFinished])
      else
        (tt, set_isJobRunning false j1, [EDeleteLater (Some r); EFinished]).
Proof.
  intros He Hd. slot_unfold. rewrite He.
  rewrite (bool_decide_eq_true_2 (0 < length (binaryData r)))
    by (destruct (binaryData r); [done|simpl; lia]).
  simpl. destruct (Q_OS_WIN os); simpl; [|done].
  by destruct (decide (S (_chunkCount j) < MaxChunks)).
Qed.

Lemma slotR_end_of_data (j : Job) (r : KJob) :
  Q_OS_UNIX_not_MAC os = false →
  error r = EntryNotFound → 0 < _chunkCount j →
  slotR (Some r) j
    = (tt, set_isJobRunning false j, [EDeleteLater (Some r); EFinished]).
Proof.
  intros Hos He Hc. slot_unfold. rewrite He, Hos. simpl.
  destruct (_chunkCount j) as [|c] eqn:Hcnt; [lia|]. reflexivity.
Qed.

Lemma Store_read_some (st : Store) (service kck : string) (fb : bool) d :
  st !! (service, kck) = Some d →
  readPassword st service kck fb = (st, (NoError, "", d)).
Proof. intros Hl. simpl. by rewrite Hl. Qed.

Lemma Store_read_none (st : Store) (service kck : string) (fb : bool) :
  st !! (service, kck) = None →
  readPassword st service kck fb
    = (st, (EntryNotFound, "Entry not found", [])).
Proof. intros Hl. simpl. by rewrite Hl. Qed.

Lemma win_not_unix : Q_OS_WIN os = true → Q_OS_UNIX_not_MAC os = false.
Proof. by destruct os. Qed.

Lemma read_loop_win (data : QByteArray) (cs n : nat) (k service : string)
    (account : option Account) (migration fb : bool) (st : Store) :
  let K := deriveKey keychainKey k account migration in
  Q_OS_WIN os = true →
  n ≤ MaxChunks →
  (∀ c, c < n →
     st !! (service, K c) = Some (chunkAt cs data c)
     ∧ chunkAt cs data c ≠ []) →
  (n < MaxChunks → st !! (service, K n) = None) →
  ∀ fuel i j last,
    _isJobRunning j = true → _chunkCount j = i →
    _chunkBuffer j = take (i * cs) data →
    _key j = k → _account j = account →
    _keychainMigration j = migration → _serviceName j = service →
    _insecureFallback j = fb →
    pendingRequest last = Some (EStartRead service (K i) fb) →
    i < n → MaxChunks - i ≤ fuel →
    ∃ j' trace,
      loopR fuel st j last = Some (st, j', trace)
      ∧ _error j' = _error j
      ∧ _isJobRunning j' = false
      ∧ _chunkBuffer j' = take (n * cs) data
      ∧ _chunkCount j' = n.
Proof.
  intros K Hwin Hn Hst Hend fuel.
  induction fuel as [|fuel IH];
    intros i j last Hrun Hcnt Hbuf Hk Ha Hm Hs Hf Hpend Hi Hfuel; [lia|].
  destruct (Hst i Hi) as [Hl Hne].
  erewrite processEvents_step;
    [| exact Hrun | exact Hpend
     | by apply deliver_read, Store_read_some ].
  rewrite slotR_success by done. rewrite Hwin. cbn zeta.
  rewrite Hcnt, Hk, Ha, Hm, Hs, Hf, Hbuf. cbn [binaryData].
  rewrite take_chunks.
  destruct (decide (S i < MaxChunks)) as [Hlt|Hge]; cbn [fst snd].
  - destruct (decide (S i < n)) as [Hin|Hlast].
    + match goal with
      | |- context [processEvents _ _ fuel st ?j1 ?l1] =>
          destruct (IH (S i) j1 l1)
            as (j' & tr & Hloop & He & Hr & Hb & Hc); try done; [lia|]
      end.
      rewrite Hloop. do 2 eexists. split; [reflexivity|].
      by rewrite He.
    + assert (Hn' : n = S i) by lia. subst n.
      destruct fuel as [|fuel]; [lia|].
      erewrite processEvents_step;
        [| done | reflexivity
         | by apply deliver_read, Store_read_none, Hend ].
      rewrite slotR_end_of_data; [| by apply win_not_unix | done | simpl; lia].
      cbn [fst snd]. rewrite processEvents_done by done.
      do 2 eexists. split; [reflexivity|]. done.
  - assert (Hn' : n = S i) by lia. subst n.
    rewrite processEvents_done by done.
    do 2 eexists. split; [reflexivity|]. done.
Qed.

(** A whole read job on a store that holds the chunks [0 .. n-1] of
    [data], cut every [cs] bytes, and nothing under the next key. *)
Lemma read_run_win (data : QByteArray) (cs n fuel : nat) (st : Store)
    (j : Job) :
  let K :=
    deriveKey keychainKey (_key j) (_account j) (_keychainMigration j) in
  Q_OS_WIN os = true →
  0 < n → n ≤ MaxChunks →
  (∀ c, c < n →
     st !! (_serviceName j, K c) = Some (chunkAt cs data c)
     ∧ chunkAt cs data c ≠ []) →
  (n < MaxChunks → st !! (_serviceName j, K n) = None) →
  _error j = NoError → MaxChunks ≤ fuel →
  ∃ j' trace,
    ReadJob_startAwait os MaxChunks keychainKey fuel st j
      = Some (true, st, j', trace)
    ∧ _error j' = NoError
    ∧ _chunkBuffer j' = take (n * cs) data.
Proof.
  intros K Hwin H0 Hn Hst Hend Herr Hfuel.
  unfold ReadJob_startAwait. rewrite startR_eq.
  match goal with
  | |- context [processEvents _ _ fuel st ?j1 ?l1] =>
      destruct (read_loop_win data cs n (_key j) (_serviceName j)
                  (_account j) (_keychainMigration j) (_insecureFallback j)
                  st Hwin Hn Hst Hend fuel 0 j1 l1)
        as (j' & tr & Hloop & He & Hr & Hb & Hc); try done; [lia|]
  end.
  rewrite Hloop. simpl in He.
  unfold ReadJob_awaitResult. rewrite decide_True by congruence.
  do 2 eexists. split; [reflexivity|]. split; [congruence|done].
Qed.

Lemma read_run_single (d : QByteArray) (fuel : nat) (st : Store) (j : Job) :
  Q_OS_WIN os = false →
  st !! (_serviceName j,
         deriveKey keychainKey (_key j) (_account j)
           (_keychainMigration j) 0) = Some d →
  d ≠ [] → _error j = NoError → 0 < fuel →
  ∃ j' trace,
    ReadJob_startAwait os MaxChunks keychainKey fuel st j
      = Some (true, st, j', trace)
    ∧ _error j' = NoError
    ∧ _chunkBuffer j' = d.
Proof.
  intros Hwin Hl Hd Herr Hfuel.
  unfold ReadJob_startAwait. rewrite startR_eq.
  destruct fuel as [|fuel]; [lia|].
  erewrite processEvents_step;
    [| done | reflexivity | by apply deliver_read, Store_read_some ].
  rewrite slotR_success by done. rewrite Hwin. cbn [fst snd].
  rewrite processEvents_done by done.
  unfold ReadJob_awaitResult. rewrite decide_True by done.
  do 2 eexists. split; [reflexivity|]. done.
Qed.

End StoreChains.

(** ** Distinct chunks, distinct keys *)

Lemma indexed_name_inj (k : string) (a b : nat) :
  (if decide (a = 0) then k else k +:+ "." +:+ number a)
    = (if decide (b = 0) then k else k +:+ "." +:+ number b) →
  a = b.
Proof.
  destruct (decide (a = 0)) as [->|Ha], (decide (b = 0)) as [->|Hb];
    intros Heq; [done| | |].
  - rewrite <- (string_app_nil_r k) in Heq at 1.
    by apply (inj (String.append k)) in Heq.
  - rewrite <- (string_app_nil_r k) in Heq at 2.
    by apply (inj (String.append k)) in Heq.
  - apply (inj (String.append k)) in Heq.
    apply (inj (String.append ".")) in Heq.
    by apply (inj pretty) in Heq.
Qed.

Lemma deriveKey_inj keychainKey (k : string) (account : option Account)
    (a b : nat) :
  keysDistinct keychainKey account →
  deriveKey keychainKey k account false a
    = deriveKey keychainKey k account false b →
  a = b.
Proof.
  intros Hd. unfold deriveKey. destruct account as [acc|].
  - intros Heq. apply (Hd acc eq_refl) in Heq. by apply indexed_name_inj in Heq.
  - apply indexed_name_inj.
Qed.

Lemma concat_chunks (cs : nat) (data : QByteArray) (n : nat) :
  concat (chunkAt cs data <$> seq 0 n) = take (n * cs) data.
Proof.
  induction n as [|n IH]; [done|].
  rewrite seq_S, fmap_app, concat_app, IH. simpl.
  rewrite app_nil_r. apply take_chunks.
Qed.

(** ** Whole jobs: write, then read *)

Section RoundTrip.
Variable os : OS.
Variables ChunkSize MaxChunks : nat.
Variable keychainKey : string → string → string → string.
Variable appName : string.

#[local] Abbreviation awaitW :=
  (WriteJob_startAwait os ChunkSize MaxChunks keychainKey).
#[local] Abbreviation awaitR := (ReadJob_startAwait os MaxChunks keychainKey).
#[local] Abbreviation newW := (WriteJob_ctor appName).
#[local] Abbreviation newR := (ReadJob_ctor appName).

(** Write and read back on a build that splits: the first
    [min (ceil (L / ChunkSize)) MaxChunks] chunks go in, and come out
    again when the store has nothing under the key after the last one. *)
Lemma round_trip_split (fuel : nat) (st : Store) (iw rw ir rr : bool)
    (account : option Account) (k : string) (secret : QByteArray) :
  let n := chunkTotal ChunkSize (length secret) `min` MaxChunks in
  let K := deriveKey keychainKey k account false in
  Q_OS_WIN os = true →
  0 < ChunkSize → 0 < MaxChunks → MaxChunks ≤ fuel →
  secret ≠ [] →
  keysDistinct keychainKey account →
  (n < MaxChunks → st !! (appName, K n) = None) →
  ∃ st1 jw tw jr tr,
    awaitW fuel st (newW iw rw account k secret) = Some (true, st1, jw, tw)
    ∧ _error jw = NoError
    ∧ writesOf tw = (λ c, (K c, chunkAt ChunkSize secret c)) <$> seq 0 n
    ∧ awaitR fuel st1 (newR ir rr account k false) = Some (true, st1, jr, tr)
    ∧ _error jr = NoError
    ∧ _chunkBuffer jr = take (ChunkSize * MaxChunks) secret.
Proof.
  intros n K Hwin Hcs Hmc Hfuel Hne Hkeys Hfresh.
  destruct (write_run os ChunkSize MaxChunks keychainKey fuel st
              (newW iw rw account k secret) Hcs Store_writesOk eq_refl eq_refl
              Hfuel)
    as (st1 & jw & tw & Hw & Hwr & Hst1 & Hew & _ & _).
  simpl in Hwr, Hst1. unfold cutSize in Hwr, Hst1. rewrite Hwin in Hwr, Hst1.
  fold n K in Hwr, Hst1.
  assert (Hinj : ∀ a b, K a = K b → a = b).
  { intros a b. by apply deriveKey_inj. }
  assert (Hn0 : 0 < n).
  { assert (H1 : drop (0 * ChunkSize) secret ≠ []) by done.
    apply chunk_pending in H1; [|done]. lia. }
  destruct (read_run_win os MaxChunks keychainKey secret ChunkSize n fuel st1
              (newR ir rr account k false))
    as (jr & tr & Hr & Her & Hbr); try done; try (unfold n; lia).
  - intros c Hc. simpl. fold K. rewrite Hst1. split.
    + apply Store_chunks_lookup; [|done]. intros a b _ _. apply Hinj.
    + apply chunkAt_nonempty; [done|]. unfold n in Hc. lia.
  - intros Hlt. simpl. fold K. rewrite Hst1, Store_chunks_other.
    + by apply Hfresh.
    + intros c Hc Heq. apply Hinj in Heq. lia.
  - exists st1, jw, tw, jr, tr. repeat split; try done.
    rewrite Hbr. unfold n. by apply take_all_chunks.
Qed.

(** Write and read back on a build that writes the whole buffer as one
    chunk. *)
Lemma round_trip_whole (fuel : nat) (st : Store) (iw rw ir rr : bool)
    (account : option Account) (k : string) (secret : QByteArray) :
  Q_OS_WIN os = false →
  0 < ChunkSize → 0 < MaxChunks → MaxChunks ≤ fuel →
  secret ≠ [] →
  ∃ st1 jw tw jr tr,
    awaitW fuel st (newW iw rw account k secret) = Some (true, st1, jw, tw)
    ∧ _error jw = NoError
    ∧ writesOf tw = [(deriveKey keychainKey k account false 0, secret)]
    ∧ awaitR fuel st1 (newR ir rr account k false) = Some (true, st1, jr, tr)
    ∧ _error jr = NoError
    ∧ _chunkBuffer jr = secret.
Proof.
  intros Hwin Hcs Hmc Hfuel Hne.
  destruct (write_run os ChunkSize MaxChunks keychainKey fuel st
              (newW iw rw account k secret) Hcs Store_writesOk eq_refl eq_refl
              Hfuel)
    as (st1 & jw & tw & Hw & Hwr & Hst1 & Hew & _ & _).
  simpl in Hwr, Hst1. unfold cutSize in Hwr, Hst1. rewrite Hwin in Hwr, Hst1.
  assert (HL : 0 < length secret) by (destruct secret; [done|simpl; lia]).
  rewrite chunkTotal_whole in Hwr, Hst1 by done.
  rewrite Nat.min_l in Hwr, Hst1 by lia.
  assert (Hc0 : chunkAt (length secret) secret 0 = secret).
  { unfold chunkAt. simpl. rewrite drop_0. by apply take_ge. }
  simpl in Hwr. rewrite Hc0 in Hwr.
  rewrite Store_writeChunks_S in Hst1. rewrite Hc0 in Hst1.
  destruct (read_run_single os MaxChunks keychainKey secret fuel st1
              (newR ir rr account k false))
    as (jr & tr & Hr & Her & Hbr); try done; [|lia|].
  - simpl. rewrite Hst1. apply lookup_insert_eq.
  - by exists st1, jw, tw, jr, tr.
Qed.

(** C1, as the code has it: a non-empty secret within the bound, written
    and read back in normal mode on an ideal store that holds nothing
    under the key after the last chunk, comes back byte for byte, both
    jobs ending without error. *)
Theorem C1_round_trip (fuel : nat) (st : Store) (iw rw ir rr : bool)
    (account : option Account) (k : string) (secret : QByteArray)
    (Hcs : 0 < ChunkSize) (Hmc : 0 < MaxChunks) (Hfuel : MaxChunks ≤ fuel)
    (Hne : secret ≠ [])
    (Hlen : ∀ cs, payloadCap os ChunkSize = Some cs →
              length secret ≤ cs * MaxChunks)
    (Hkeys : keysDistinct keychainKey account)
    (Hfresh : ∀ cs, payloadCap os ChunkSize = Some cs →
                chunkTotal cs (length secret) < MaxChunks →
                st !! (appName,
                       deriveKey keychainKey k account false
                         (chunkTotal cs (length secret))) = None) :
  ∃ st1 jw tw jr tr,
    awaitW fuel st (newW iw rw account k secret) = Some (true, st1, jw, tw)
    ∧ _error jw = NoError
    ∧ awaitR fuel st1 (newR ir rr account k false) = Some (true, st1, jr, tr)
    ∧ _error jr = NoError
    ∧ _chunkBuffer jr = secret.
Proof.
  unfold payloadCap in Hlen, Hfresh.
  destruct (Q_OS_WIN os) eqn:Hwin.
  - specialize (Hlen ChunkSize eq_refl). specialize (Hfresh ChunkSize eq_refl).
    assert (Hn : chunkTotal ChunkSize (length secret) ≤ MaxChunks).
    { apply chunkTotal_le; [done|lia]. }
    destruct (round_trip_split fuel st iw rw ir rr account k secret)
      as (st1 & jw & tw & jr & tr & Hw & Hew & _ & Hr & Her & Hb); try done.
    { rewrite Nat.min_l by done. exact Hfresh. }
    exists st1, jw, tw, jr, tr. repeat split; try done.
    rewrite Hb. apply take_ge. lia.
  - destruct (round_trip_whole fuel st iw rw ir rr account k secret)
      as (st1 & jw & tw & jr & tr & Hw & Hew & _ & Hr & Her & Hb); try done.
    by exists st1, jw, tw, jr, tr.
Qed.

(** C2, as the code has it: on a backend that reports no error a write
    job ends well after starting [min (ceil (L / ChunkSize)) MaxChunks]
    writes where the build splits, and one write for a non-empty payload,
    none for the empty one, where it does not; chunk [c] goes under the
    key of index [c], in ascending order. *)
Theorem C2_write_count {B : Type} `{!Backend B} (fuel : nat) (b : B)
    (insecure retry : bool) (account : option Account) (k : string)
    (data : QByteArray)
    (Hcs : 0 < ChunkSize) (Hmc : 0 < MaxChunks) (Hfuel : MaxChunks ≤ fuel)
    (Hok : writesOk (B := B)) :
  let count :=
    match payloadCap os ChunkSize with
    | Some cs => chunkTotal cs (length data) `min` MaxChunks
    | None => if decide (data = []) then 0 else 1
    end in
  ∃ b' j' trace,
    awaitW fuel b (newW insecure retry account k data)
      = Some (true, b', j', trace)
    ∧ _error j' = NoError
    ∧ length (writesOf trace) = count
    ∧ writesOf trace
        = (λ c, (deriveKey keychainKey k account false c,
                 chunkAt (cutSize os ChunkSize data) data c))
          <$> seq 0 count.
Proof.
  intros count.
  destruct (write_run os ChunkSize MaxChunks keychainKey fuel b
              (newW insecure retry account k data) Hcs Hok eq_refl eq_refl
              Hfuel)
    as (b' & j' & trace & Hw & Hwr & _ & He & _ & _).
  simpl in Hwr.
  assert (Hcount : chunkTotal (cutSize os ChunkSize data) (length data)
                     `min` MaxChunks = count).
  { unfold count, payloadCap, cutSize. destruct (Q_OS_WIN os); [done|].
    destruct (decide (data = [])) as [->|Hne].
    - change (chunkTotal 0 0 `min` MaxChunks = 0).
      by rewrite chunkTotal_empty.
    - rewrite chunkTotal_whole by (destruct data; [done|simpl; lia]). lia. }
  rewrite Hcount in Hwr.
  exists b', j', trace. repeat split; try done.
  by rewrite Hwr, length_fmap, length_seq.
Qed.

(** C3: where the build caps a chunk at [cs] bytes and the secret is
    longer than [cs * MaxChunks], the write job ends without error after
    writing [MaxChunks] chunks that make up exactly the first
    [cs * MaxChunks] bytes, each under its derived key, and a read job
    then ends without error holding exactly those bytes. *)
Theorem C3_truncation (fuel : nat) (st : Store) (iw rw ir rr : bool)
    (account : option Account) (k : string) (secret : QByteArray) (cs : nat)
    (Hcs : 0 < ChunkSize) (Hmc : 0 < MaxChunks) (Hfuel : MaxChunks ≤ fuel)
    (Hcap : payloadCap os ChunkSize = Some cs)
    (Hlen : cs * MaxChunks < length secret)
    (Hkeys : keysDistinct keychainKey account) :
  ∃ st1 jw tw jr tr,
    awaitW fuel st (newW iw rw account k secret) = Some (true, st1, jw, tw)
    ∧ _error jw = NoError
    ∧ writesOf tw
        = (λ c, (deriveKey keychainKey k account false c,
                 chunkAt cs secret c)) <$> seq 0 MaxChunks
    ∧ concat (snd <$> writesOf tw) = take (cs * MaxChunks) secret
    ∧ awaitR fuel st1 (newR ir rr account k false) = Some (true, st1, jr, tr)
    ∧ _error jr = NoError
    ∧ _chunkBuffer jr = take (cs * MaxChunks) secret.
Proof.
  unfold payloadCap in Hcap.
  destruct (Q_OS_WIN os) eqn:Hwin; [|done].
  injection Hcap as <-.
  assert (Hn : chunkTotal ChunkSize (length secret) `min` MaxChunks
               = MaxChunks).
  { apply Nat.min_r. apply Nat.lt_le_incl, Nat.nle_gt. intros Hle.
    apply chunkTotal_le in Hle; [lia|done]. }
  destruct (round_trip_split fuel st iw rw ir rr account k secret)
    as (st1 & jw & tw & jr & tr & Hw & Hew & Hwr & Hr & Her & Hb); try done.
  { intros ->. simpl in Hlen. lia. }
  { rewrite Hn. lia. }
  rewrite Hn in Hwr.
  exists st1, jw, tw, jr, tr. repeat split; try done.
  rewrite Hwr, <- list_fmap_compose, (Nat.mul_comm ChunkSize MaxChunks).
  rewrite <- (concat_chunks ChunkSize secret MaxChunks). reflexivity.
Qed.

End RoundTrip.

(** ** The claims that fail as stated *)

(** C1 fails as stated.  (a) The empty secret: the write job starts no
    backend job, so the read job on the same key ends with
    [EntryNotFound].  (b) A one-chunk secret over a store with a second
    chunk left from before: the read job returns both chunks. *)
Lemma C1_counterexample :
  (∃ jw tw jr tr,
     WriteJob_startAwait Linux 2048 10 sampleKeychainKey 10 (∅ : Store)
       (certWriter []) = Some (true, ∅, jw, tw)
     ∧ ReadJob_startAwait Linux 10 sampleKeychainKey 10 (∅ : Store) certReader
         = Some (false, ∅, jr, tr)
     ∧ _error jr = EntryNotFound)
  ∧ (∃ st1 jw tw jr tr,
       WriteJob_startAwait Windows 2048 10 sampleKeychainKey 10 staleStore
         (certWriter [x01]) = Some (true, st1, jw, tw)
       ∧ ReadJob_startAwait Windows 10 sampleKeychainKey 10 st1 certReader
           = Some (true, st1, jr, tr)
       ∧ _chunkBuffer jr = [x01; x09]
       ∧ _chunkBuffer jr ≠ [x01]).
Proof.
  split.
  - do 4 eexists. split; [vm_compute; reflexivity|].
    split; [vm_compute; reflexivity|]. reflexivity.
  - eexists (<[("Nextcloud", "cert") := [x01]]> staleStore).
    do 4 eexists. split; [vm_compute; reflexivity|].
    split; [vm_compute; reflexivity|]. split; [reflexivity|]. discriminate.
Qed.

(** C2 fails as stated.  (a) Where the build does not split, the empty
    payload starts no write at all, not one.  (b) Where it splits at 2048
    bytes with at most 10 chunks, a payload of 20481 bytes starts 10
    writes, not [ceil (20481 / 2048) = 11]. *)
Lemma C2_counterexample :
  (∃ jw tw,
     WriteJob_startAwait Linux 2048 10 sampleKeychainKey 10 (∅ : Store)
       (certWriter []) = Some (true, ∅, jw, tw)
     ∧ writesOf tw = [])
  ∧ (∃ st1 jw tw,
       WriteJob_startAwait Windows 2048 10 sampleKeychainKey 10 (∅ : Store)
         (certWriter (replicate (10 * 2048 + 1) x00)) = Some (true, st1, jw, tw)
       ∧ length (writesOf tw) = 10
       ∧ chunkTotal 2048 (10 * 2048 + 1) = 11).
Proof.
  split.
  - do 2 eexists. split; [vm_compute; reflexivity|]. reflexivity.
  - destruct (write_run Windows 2048 10 sampleKeychainKey 10 (∅ : Store)
                (certWriter (replicate (10 * 2048 + 1) x00)))
      as (st1 & jw & tw & Hw & Hwr & _);
      [lia | apply Store_writesOk | reflexivity | reflexivity | lia |].
    exists st1, jw, tw. split; [exact Hw|]. split.
    + rewrite Hwr, length_fmap, length_seq. vm_compute. reflexivity.
    + vm_compute. reflexivity.
Qed.

(** C4 fails as stated on a build without the retry block: on macOS a
    read job that holds the retry permission, runs without insecure
    fallback and meets [NoBackendAvailable] starts no timer and ends with
    that error at once. *)
Lemma C4_counterexample :
  _retryOnKeyChainError certReader = true
  ∧ _insecureFallback certReader = false
  ∧ ∃ jr,
      ReadJob_startAwait MacOS 10 sampleKeychainKey 10
        (mkScripted certStore [(NoBackendAvailable, "no backend")])
        certReader
      = Some (false, mkScripted certStore [], jr,
              [EStartRead "Nextcloud" "cert" false;
               ECallKey (Some (mkKJob "cert" NoBackendAvailable
                                 "no backend" [] false));
               EDeleteLater (Some (mkKJob "cert" NoBackendAvailable
                                     "no backend" [] false));
               EFinished])
      ∧ _error jr = NoBackendAvailable.
Proof.
  split; [reflexivity|]. split; [reflexivity|].
  eexists. split; [vm_compute; reflexivity|]. reflexivity.
Qed.

(** C6 fails as stated: when the backend reports [NoError] with empty
    data for the second chunk, the job records [NoError], [startAwait]
    returns [true] and the buffer with the first chunk is kept. *)
Lemma C6_counterexample :
  ∃ jr tr,
    ReadJob_startAwait Windows 10 sampleKeychainKey 10 emptyChunkStore
      certReader = Some (true, emptyChunkStore, jr, tr)
    ∧ _error jr = NoError
    ∧ _chunkBuffer jr = [x01]
    ∧ ECallKey (Some (mkKJob "cert.1" NoError "" [] false)) ∈ tr.
Proof.
  do 2 eexists. split; [vm_compute; reflexivity|].
  split; [reflexivity|]. split; [reflexivity|]. in_list.
Qed.

(** ** The theorems at concrete jobs *)

(** [C1_round_trip] on a three-byte secret, split at 2 bytes, on the empty
    store. *)
Lemma C1_witness :
  ∃ st1 jw tw jr tr,
    WriteJob_startAwait Windows 2 3 sampleKeychainKey 3 (∅ : Store)
      (certWriter [x01; x02; x03]) = Some (true, st1, jw, tw)
    ∧ _error jw = NoError
    ∧ ReadJob_startAwait Windows 3 sampleKeychainKey 3 st1 certReader
        = Some (true, st1, jr, tr)
    ∧ _error jr = NoError
    ∧ _chunkBuffer jr = [x01; x02; x03].
Proof.
  apply (C1_round_trip Windows 2 3 sampleKeychainKey "Nextcloud" 3
           (∅ : Store) false true false true None "cert" [x01; x02; x03]).
  - lia.
  - lia.
  - lia.
  - discriminate.
  - intros cs [= <-]. simpl. lia.
  - intros a Ha. discriminate.
  - intros cs _ _. apply lookup_empty.
Defined.

(** [C2_write_count] on the same job: two writes, [cert] then [cert.1]. *)
Lemma C2_witness :
  ∃ st1 jw tw,
    WriteJob_startAwait Windows 2 3 sampleKeychainKey 3 (∅ : Store)
      (certWriter [x01; x02; x03]) = Some (true, st1, jw, tw)
    ∧ _error jw = NoError
    ∧ length (writesOf tw) = 2
    ∧ writesOf tw = [("cert", [x01; x02]); ("cert.1", [x03])].
Proof.
  apply (C2_write_count Windows 2 3 sampleKeychainKey "Nextcloud" 3
           (∅ : Store) false true None "cert" [x01; x02; x03]).
  - lia.
  - lia.
  - lia.
  - apply Store_writesOk.
Defined.

(** [C3_truncation] on five bytes with room for two chunks of two. *)
Lemma C3_witness :
  ∃ st1 jw tw jr tr,
    WriteJob_startAwait Windows 2 2 sampleKeychainKey 2 (∅ : Store)
      (certWriter [x01; x02; x03; x04; x05]) = Some (true, st1, jw, tw)
    ∧ _error jw = NoError
    ∧ writesOf tw = [("cert", [x01; x02]); ("cert.1", [x03; x04])]
    ∧ concat (snd <$> writesOf tw) = [x01; x02; x03; x04]
    ∧ ReadJob_startAwait Windows 2 sampleKeychainKey 2 st1 certReader
        = Some (true, st1, jr, tr)
    ∧ _error jr = NoError
    ∧ _chunkBuffer jr = [x01; x02; x03; x04].
Proof.
  apply (C3_truncation Windows 2 2 sampleKeychainKey "Nextcloud" 2
           (∅ : Store) false true false true None "cert"
           [x01; x02; x03; x04; x05] 2).
  - lia.
  - lia.
  - lia.
  - reflexivity.
  - simpl. lia.
  - intros a Ha. discriminate.
Defined.

(** [C4_retry_once_on_linux] on a backend that is unavailable once. *)
Lemma C4_witness :
  ∃ jr,
    ReadJob_startAwait Linux 10 sampleKeychainKey 3
      (mkScripted certStore [(NoBackendAvailable, "no backend")]) certReader
    = Some (true, mkScripted certStore [], jr,
            [EStartRead "Nextcloud" "cert" false;
             ESingleShot 10000;
             EDeleteLater (Some (mkKJob "cert" NoBackendAvailable
                                   "no backend" [] false));
             EStartRead "Nextcloud" "cert" false;
             EDeleteLater (Some (mkKJob "cert" NoError "" [x01] false));
             EFinished])
    ∧ _error jr = NoError
    ∧ _chunkBuffer jr = [x01].
Proof.
  destruct (C4_retry_once_on_linux 10 sampleKeychainKey 0 certReader
              (mkScripted certStore [(NoBackendAvailable, "no backend")])
              (mkScripted certStore []) (mkScripted certStore [])
              NoBackendAvailable NoError "no backend" "" [] [x01])
    as (j1 & _ & _ & _ & _ & Hok & _);
    [reflexivity | reflexivity | reflexivity | reflexivity
    | vm_compute; reflexivity | vm_compute; reflexivity |].
  destruct (Hok eq_refl ltac:(discriminate))
    as (jr & ji & Hr & _ & _ & _ & _ & He & Hb).
  exists jr. split; [exact Hr|]. split; [exact He|exact Hb].
Defined.

(** [C5_entry_not_found] after one chunk: the normal end of the data. *)
Lemma C5_witness :
  ∃ j' effs,
    slotReadJobDone Windows 10 sampleKeychainKey
      (Some (mkKJob "cert.1" EntryNotFound "Entry not found" [] false))
      (set_isJobRunning true
         (set_chunkCount 1 (set_chunkBuffer [x01] certReader)))
    = (tt, j', effs)
    ∧ _isJobRunning j' = false
    ∧ _error j' = NoError
    ∧ _chunkBuffer j' = [x01].
Proof.
  destruct (C5_entry_not_found Windows 10 sampleKeychainKey
              (set_isJobRunning true
                 (set_chunkCount 1 (set_chunkBuffer [x01] certReader)))
              (mkKJob "cert.1" EntryNotFound "Entry not found" [] false)
              eq_refl eq_refl)
    as (j' & effs & Hs & Hr & _ & _ & Hb & _ & _ & Hok).
  exists j', effs. split; [exact Hs|]. split; [exact Hr|].
  split; [|exact Hb].
  apply Hok. simpl. lia.
Defined.

(** [C6_read_failure_recorded] on an [AccessDenied] completion. *)
Lemma C6_witness :
  ∃ j',
    slotReadJobDone MacOS 10 sampleKeychainKey
      (Some (mkKJob "cert" AccessDenied "denied" [] false))
      (set_isJobRunning true certReader)
    = (tt, j',
       [ECallKey (Some (mkKJob "cert" AccessDenied "denied" [] false));
        EDeleteLater (Some (mkKJob "cert" AccessDenied "denied" [] false));
        EFinished])
    ∧ _error j' = AccessDenied
    ∧ ReadJob_awaitResult j'
        = (false, set_chunkBuffer [] (set_chunkCount 0 j')).
Proof.
  destruct (C6_read_failure_recorded MacOS 10 sampleKeychainKey 0
              (∅ : Store) (set_isJobRunning true certReader)
              (mkKJob "cert" AccessDenied "denied" [] false))
    as (j' & Hs & He & _ & _ & _ & _ & _ & Hres).
  - intros [Hno _]. discriminate.
  - discriminate.
  - reflexivity.
  - exists j'. split; [exact Hs|]. split; [exact He|exact Hres].
Defined.

(** [C7_write_error_aborts] on a second chunk that is refused. *)
Lemma C7_witness :
  ∃ j',
    slotWriteJobDone Windows 2048 10 sampleKeychainKey
      (Some (mkKJob "cert" AccessDenied "denied" [x01] false))
      (set_isJobRunning true
         (set_chunkCount 1 (set_chunkBuffer [x02] (certWriter []))))
    = (tt, j',
       [ECallKey (Some (mkKJob "cert" AccessDenied "denied" [x01] false));
        EFinished;
        EDeleteLater (Some (mkKJob "cert" AccessDenied "denied" [x01] false))])
    ∧ _error j' = AccessDenied
    ∧ _chunkBuffer j' = []
    ∧ WriteJob_awaitResult j' = false.
Proof.
  destruct (C7_write_error_aborts Windows 2048 10 sampleKeychainKey 0
              (∅ : Store)
              (set_isJobRunning true
                 (set_chunkCount 1 (set_chunkBuffer [x02] (certWriter []))))
              (mkKJob "cert" AccessDenied "denied" [x01] false))
    as (j' & Hs & He & _ & Hb & _ & _ & _ & _ & Hres).
  - discriminate.
  - exists j'. split; [exact Hs|]. split; [exact He|].
    split; [exact Hb|exact Hres].
Defined.

(** [C8_storage_keys] on the second chunk of a job without account. *)
Lemma C8_witness :
  (∃ chunk,
     pendingRequest
       (slotWriteJobDone Windows 2048 10 sampleKeychainKey
          (Some (mkKJob "cert" NoError "" [x01] false))
          (set_isJobRunning true
             (set_chunkCount 1 (set_chunkBuffer [x02] (certWriter []))))).2
     = Some (EStartWrite "Nextcloud" "cert.1" chunk false))
  ∧ pendingRequest
      (ReadJob_start sampleKeychainKey (set_isJobRunning true certReader)).2
      = Some (EStartRead "Nextcloud" "cert" false)
  ∧ pendingRequest
      (slotReadJobDone Windows 10 sampleKeychainKey
         (Some (mkKJob "cert" NoError "" [x01] false))
         (set_isJobRunning true certReader)).2
      = Some (EStartRead "Nextcloud" "cert.1" false).
Proof.
  destruct (C8_storage_keys Windows 2048 10 sampleKeychainKey
              (set_isJobRunning true
                 (set_chunkCount 1 (set_chunkBuffer [x02] (certWriter []))))
              (set_isJobRunning true certReader)
              (Some (mkKJob "cert" NoError "" [x01] false))
              (mkKJob "cert" NoError "" [x01] false))
    as ([chunk Hw] & Hr0 & Hr1 & _).
  - intros w [= <-]. reflexivity.
  - discriminate.
  - simpl. lia.
  - reflexivity.
  - discriminate.
  - simpl. lia.
  - split; [|split].
    + exists chunk. rewrite Hw. vm_compute. reflexivity.
    + rewrite Hr0. vm_compute. reflexivity.
    + rewrite Hr1. vm_compute. reflexivity.
Defined.

(** ** Read jobs on an arbitrary store *)

Lemma readsOf_app l1 l2 : readsOf (l1 ++ l2) = readsOf l1 ++ readsOf l2.
Proof.
  induction l1 as [|e l1 IH]; [done|].
  destruct e; simpl; by rewrite ?IH.
Qed.

Lemma writesOf_app l1 l2 : writesOf (l1 ++ l2) = writesOf l1 ++ writesOf l2.
Proof.
  induction l1 as [|e l1 IH]; [done|].
  destruct e; simpl; by rewrite ?IH.
Qed.

Lemma timersOf_app l1 l2 : timersOf (l1 ++ l2) = timersOf l1 + timersOf l2.
Proof.
  induction l1 as [|e l1 IH]; [done|].
  destruct e; simpl; by rewrite ?IH.
Qed.

Lemma storedPrefix_None (st : Store) (service : string) (K : nat → string)
    (i todo : nat) :
  st !! (service, K i) = None → storedPrefix st service K i todo = [].
Proof. intros Hl. destruct todo; [done|]. simpl. by rewrite Hl. Qed.

Section StoreReads.
Variable os : OS.
Variable MaxChunks : nat.
Variable keychainKey : string → string → string → string.

#[local] Abbreviation slotR := (slotReadJobDone os MaxChunks keychainKey).
#[local] Abbreviation startR := (ReadJob_start keychainKey).
#[local] Abbreviation loopR := (processEvents (B := Store) slotR startR).
#[local] Abbreviation awaitR := (ReadJob_startAwait os MaxChunks keychainKey).

Lemma slotR_not_found_first (j : Job) (r : KJob) :
  error r = EntryNotFound → _chunkCount j = 0 →
  ∃ j',
    slotR (Some r) j
      = (tt, j', [ECallKey (Some r); EDeleteLater (Some r); EFinished])
    ∧ _error j' = EntryNotFound
    ∧ _errorString j' = errorString r
    ∧ _isJobRunning j' = false
    ∧ _chunkBuffer j' = _chunkBuffer j
    ∧ _chunkCount j' = 0.
Proof.
  intros He Hc. slot_unfold. rewrite He.
  destruct (Q_OS_UNIX_not_MAC os); simpl;
    destruct (insecureFallback r); simpl;
    try (destruct (_retryOnKeyChainError j); simpl);
    rewrite ?Hc; simpl; eexists; (split; [reflexivity|]); done.
Qed.

Lemma slotR_empty_ok (j : Job) (r : KJob) :
  error r = NoError → binaryData r = [] →
  ∃ j',
    slotR (Some r) j
      = (tt, j', [ECallKey (Some r); EDeleteLater (Some r); EFinished])
    ∧ _error j' = NoError
    ∧ _isJobRunning j' = false
    ∧ _chunkBuffer j' = _chunkBuffer j
    ∧ _chunkCount j' = _chunkCount j.
Proof.
  intros He Hd. slot_unfold. rewrite He, Hd.
  destruct (Q_OS_UNIX_not_MAC os); simpl;
    destruct (insecureFallback r); simpl;
    try (destruct (_retryOnKeyChainError j); simpl);
    eexists; (split; [reflexivity|]); done.
Qed.

(** X1: a read job on a store that has nothing under the job's first key
    asks the backend once, arms no timer, and [startAwait] returns
    [false] with [EntryNotFound] recorded, no chunk counted and an empty
    buffer, on every build. *)
Theorem read_missing_key (fuel : nat) (st : Store) (j : Job)
    (Hfuel : 0 < fuel)
    (Hmiss : st !! (_serviceName j,
                    deriveKey keychainKey (_key j) (_account j)
                      (_keychainMigration j) 0) = None) :
  ∃ j' trace,
    awaitR fuel st j = Some (false, st, j', trace)
    ∧ _error j' = EntryNotFound
    ∧ _chunkCount j' = 0
    ∧ _chunkBuffer j' = []
    ∧ _isJobRunning j' = false
    ∧ readsOf trace
        = [deriveKey keychainKey (_key j) (_account j)
             (_keychainMigration j) 0]
    ∧ timersOf trace = 0
    ∧ writesOf trace = [].
Proof.
  unfold ReadJob_startAwait. rewrite startR_eq.
  destruct fuel as [|fuel]; [lia|].
  erewrite processEvents_step;
    [| done | reflexivity | by apply deliver_read, Store_read_none ].
  match goal with
  | |- context [slotReadJobDone _ _ _ (Some ?r) ?j1] =>
      destruct (slotR_not_found_first j1 r)
        as (j' & Hs & He & Hes & Hr & Hb & Hc); [done|done|]
  end.
  rewrite Hs. cbn [fst snd]. rewrite processEvents_done by done.
  unfold ReadJob_awaitResult. rewrite decide_False by (by rewrite He).
  do 2 eexists. split; [reflexivity|]. by rewrite ?He, ?Hr.
Qed.

(** X2: where the build does not split, a read job on a store that has
    an entry under the job's first key asks the backend for that key only
    and [startAwait] returns [true] with exactly that entry in the
    buffer, whatever else the store holds. *)
Theorem read_single_entry (fuel : nat) (st : Store) (j : Job)
    (d : QByteArray)
    (Hwin : Q_OS_WIN os = false)
    (Hfuel : 0 < fuel)
    (Herr : _error j = NoError)
    (Hentry : st !! (_serviceName j,
                     deriveKey keychainKey (_key j) (_account j)
                       (_keychainMigration j) 0) = Some d) :
  ∃ j' trace,
    awaitR fuel st j = Some (true, st, j', trace)
    ∧ _error j' = NoError
    ∧ _chunkBuffer j' = d
    ∧ _isJobRunning j' = false
    ∧ readsOf trace
        = [deriveKey keychainKey (_key j) (_account j)
             (_keychainMigration j) 0]
    ∧ timersOf trace = 0
    ∧ writesOf trace = [].
Proof.
  unfold ReadJob_startAwait. rewrite startR_eq.
  destruct fuel as [|fuel]; [lia|].
  erewrite processEvents_step;
    [| done | reflexivity | by apply deliver_read, Store_read_some ].
  destruct d as [|x d].
  - match goal with
    | |- context [slotReadJobDone _ _ _ (Some ?r) ?j1] =>
        destruct (slotR_empty_ok j1 r)
          as (j' & Hs & He & Hr & Hb & Hc); [done|done|]
    end.
    rewrite Hs. cbn [fst snd]. rewrite processEvents_done by done.
    unfold ReadJob_awaitResult. rewrite decide_True by done.
    do 2 eexists. split; [reflexivity|]. by rewrite ?He, ?Hr, ?Hb.
  - rewrite slotR_success by done. rewrite Hwin. cbn [fst snd].
    rewrite processEvents_done by done.
    unfold ReadJob_awaitResult. rewrite decide_True by done.
    do 2 eexists. split; [reflexivity|]. done.
Qed.

Lemma read_store_loop (st : Store) (k service : string)
    (account : option Account) (migration fb : bool) :
  let K := deriveKey keychainKey k account migration in
  Q_OS_WIN os = true →
  ∀ fuel i j last,
    _isJobRunning j = true → _chunkCount j = i →
    _key j = k → _account j = account →
    _keychainMigration j = migration → _serviceName j = service →
    _insecureFallback j = fb → _error j = NoError →
    pendingRequest last = Some (EStartRead service (K i) fb) →
    i < MaxChunks → MaxChunks - i ≤ fuel →
    ∃ j' trace,
      loopR fuel st j last = Some (st, j', trace)
      ∧ _isJobRunning j' = false
      ∧ _chunkBuffer j'
          = _chunkBuffer j
            ++ concat (storedPrefix st service K i (MaxChunks - i))
      ∧ _chunkCount j'
          = i + length (storedPrefix st service K i (MaxChunks - i))
      ∧ _error j'
          = match st !! (service, K i) with
            | None => if decide (i = 0) then EntryNotFound else NoError
            | Some _ => NoError
            end
      ∧ readsOf trace
          = K <$> seq (S i)
                    (length (storedPrefix st service K i (MaxChunks - i))
                     `min` (MaxChunks - S i))
      ∧ timersOf trace = 0
      ∧ writesOf trace = [].
Proof.
  intros K Hwin fuel.
  induction fuel as [|fuel IH];
    intros i j last Hrun Hcnt Hk Ha Hm Hs Hf Herr Hpend Hi Hfuel; [lia|].
  assert (Htodo : MaxChunks - i = S (MaxChunks - S i)) by lia.
  rewrite Htodo. cbn [storedPrefix].
  destruct (st !! (service, K i)) as [[|x d]|] eqn:Hl; cbn [isEmpty].
  - erewrite processEvents_step;
      [| exact Hrun | exact Hpend
       | by apply deliver_read, Store_read_some ].
    match goal with
    | |- context [slotReadJobDone _ _ _ (Some ?r) ?j1] =>
        destruct (slotR_empty_ok j1 r)
          as (j' & Hsl & He & Hr & Hb & Hc); [done|done|]
    end.
    rewrite Hsl. cbn [fst snd]. rewrite processEvents_done by done.
    do 2 eexists. split; [reflexivity|].
    simpl. rewrite app_nil_r, Hb, Hc, He. repeat split; try done; lia.
  - erewrite processEvents_step;
      [| exact Hrun | exact Hpend
       | by apply deliver_read, Store_read_some ].
    rewrite slotR_success by done. rewrite Hwin. cbn zeta.
    rewrite Hcnt, Hk, Ha, Hm, Hs, Hf. cbn [binaryData].
    destruct (decide (S i < MaxChunks)) as [Hlt|Hge]; cbn [fst snd].
    + match goal with
      | |- context [processEvents _ _ fuel st ?j1 ?l1] =>
          destruct (IH (S i) j1 l1)
            as (j' & tr & Hloop & Hr & Hb & Hc & He & Hrd & Ht & Hw);
            try done; [lia|]
      end.
      rewrite Hloop. do 2 eexists. split; [reflexivity|].
      split; [done|]. split; [|split; [|split; [|split; [|split]]]].
      * rewrite Hb. cbn [_chunkBuffer set_chunkCount set_chunkBuffer].
        simpl. by rewrite <- app_assoc.
      * rewrite Hc. simpl. lia.
      * rewrite He. by destruct (st !! (service, K (S i))).
      * cbn [app readsOf length]. rewrite Hrd. fold K.
        match goal with
        | |- context [S ?p `min` (MaxChunks - S i)] =>
            replace (S p `min` (MaxChunks - S i))
              with (S (p `min` (MaxChunks - S (S i)))) by lia
        end.
        reflexivity.
      * simpl. exact Ht.
      * simpl. exact Hw.
    + assert (Hz : MaxChunks - S i = 0) by lia.
      rewrite Hz. cbn [storedPrefix].
      rewrite processEvents_done by done.
      do 2 eexists. split; [reflexivity|].
      simpl. rewrite app_nil_r. repeat split; try done; lia.
  - erewrite processEvents_step;
      [| exact Hrun | exact Hpend
       | by apply deliver_read, Store_read_none ].
    destruct (decide (i = 0)) as [Hi0|Hi0].
    + match goal with
      | |- context [slotReadJobDone _ _ _ (Some ?r) ?j1] =>
          destruct (slotR_not_found_first j1 r)
            as (j' & Hsl & He & Hes & Hr & Hb & Hc); [done|congruence|]
      end.
      rewrite Hsl. cbn [fst snd]. rewrite processEvents_done by done.
      do 2 eexists. split; [reflexivity|].
      simpl. rewrite app_nil_r, Hb, Hc, He. repeat split; try done; lia.
    + rewrite slotR_end_of_data; [| by apply win_not_unix | done | lia].
      cbn [fst snd]. rewrite processEvents_done by done.
      do 2 eexists. split; [reflexivity|].
      simpl. rewrite app_nil_r. repeat split; try done; lia.
Qed.

(** The whole read job where the build splits, on any store. *)
Lemma read_store_run (fuel : nat) (st : Store) (j : Job) :
  let K :=
    deriveKey keychainKey (_key j) (_account j) (_keychainMigration j) in
  let chunks := storedPrefix st (_serviceName j) K 0 MaxChunks in
  Q_OS_WIN os = true → 0 < MaxChunks → MaxChunks ≤ fuel →
  _error j = NoError →
  ∃ j' trace,
    awaitR fuel st j
      = Some (match st !! (_serviceName j, K 0) with
              | None => false
              | Some _ => true
              end, st, j', trace)
    ∧ _chunkBuffer j' = concat chunks
    ∧ _chunkCount j' = length chunks
    ∧ _isJobRunning j' = false
    ∧ readsOf trace = K <$> seq 0 (S (length chunks) `min` MaxChunks)
    ∧ timersOf trace = 0
    ∧ writesOf trace = [].
Proof.
  intros K chunks Hwin Hmc Hfuel Herr.
  unfold ReadJob_startAwait. rewrite startR_eq.
  match goal with
  | |- context [processEvents _ _ fuel st ?j1 ?l1] =>
      destruct (read_store_loop st (_key j) (_serviceName j) (_account j)
                  (_keychainMigration j) (_insecureFallback j) Hwin
                  fuel 0 j1 l1)
        as (j' & tr & Hloop & Hr & Hb & Hc & He & Hrd & Ht & Hw);
        try done; [lia|]
  end.
  rewrite Hloop. rewrite Nat.sub_0_r in Hb, Hc, Hrd.
  fold K in Hb, Hc, He, Hrd. fold chunks in Hb, Hc, Hrd.
  simpl in Hb, Hc.
  assert (Hreads : readsOf
            ([EStartRead (_serviceName j) (K 0) (_insecureFallback j)] ++ tr)
          = K <$> seq 0 (S (length chunks) `min` MaxChunks)).
  { cbn [app readsOf]. rewrite Hrd.
    replace (S (length chunks) `min` MaxChunks)
      with (S (length chunks `min` (MaxChunks - 1))) by lia.
    reflexivity. }
  unfold ReadJob_awaitResult.
  destruct (st !! (_serviceName j, K 0)) as [d0|] eqn:Hl.
  - rewrite decide_True by done.
    do 2 eexists. split; [reflexivity|]. repeat split; try done.
  - rewrite decide_False by (by rewrite He).
    assert (Hnil : chunks = []).
    { by apply storedPrefix_None. }
    do 2 eexists. split; [reflexivity|].
    rewrite Hnil in *. repeat split; try done.
Qed.

(** X3: where the build splits, a read job on any store asks for the
    keys of index 0, 1, 2, ... in ascending order, stops at the first key
    that is missing or holds no data or after [MaxChunks] keys, and ends
    with the entries found so far concatenated in that order;
    [startAwait] returns [true] exactly when the first key has an
    entry. *)
Theorem read_ordered_prefix (fuel : nat) (st : Store) (j : Job)
    (Hwin : Q_OS_WIN os = true)
    (Hmc : 0 < MaxChunks)
    (Hfuel : MaxChunks ≤ fuel)
    (Herr : _error j = NoError) :
  let K :=
    deriveKey keychainKey (_key j) (_account j) (_keychainMigration j) in
  let chunks := storedPrefix st (_serviceName j) K 0 MaxChunks in
  ∃ j' trace,
    awaitR fuel st j
      = Some (match st !! (_serviceName j, K 0) with
              | None => false
              | Some _ => true
              end, st, j', trace)
    ∧ _chunkBuffer j' = concat chunks
    ∧ _chunkCount j' = length chunks
    ∧ _isJobRunning j' = false
    ∧ readsOf trace = K <$> seq 0 (S (length chunks) `min` MaxChunks)
    ∧ timersOf trace = 0
    ∧ writesOf trace = [].
Proof. intros K chunks. by apply read_store_run. Qed.

End StoreReads.

(** ** Jobs on an arbitrary backend *)

Section AnyBackend.
Variable os : OS.
Variables ChunkSize MaxChunks : nat.
Variable keychainKey : string → string → string → string.
Context {B : Type} `{!Backend B}.

#[local] Abbreviation slotW :=
  (slotWriteJobDone os ChunkSize MaxChunks keychainKey).
#[local] Abbreviation startW :=
  (WriteJob_start os ChunkSize MaxChunks keychainKey).
#[local] Abbreviation slotR := (slotReadJobDone os MaxChunks keychainKey).
#[local] Abbreviation startR := (ReadJob_start keychainKey).
#[local] Abbreviation loopW := (processEvents slotW (mret tt)).
#[local] Abbreviation loopR := (processEvents slotR startR).




(** What one call of the read slot can do: finish; or, where the build
    splits, count one chunk more and start the next read; or, where the
    build has the retry block, give up the retry permission and arm the
    timer. *)
Lemma slotR_cases (incoming : option KJob) (j : Job) :
  ∃ j' effs,
    slotR incoming j = (tt, j', effs)
    ∧ writesOf effs = []
    ∧ ((_isJobRunning j' = false ∧ pendingRequest effs = None
        ∧ readsOf effs = [] ∧ timersOf effs = 0)
       ∨ (Q_OS_WIN os = true
          ∧ (∃ s k i,
               pendingRequest effs = Some (EStartRead s k i)
               ∧ readsOf effs = [k])
          ∧ timersOf effs = 0
          ∧ _isJobRunning j' = _isJobRunning j
          ∧ _chunkCount j' = S (_chunkCount j)
          ∧ _chunkCount j' < MaxChunks
          ∧ _retryOnKeyChainError j' = _retryOnKeyChainError j)
       ∨ (Q_OS_UNIX_not_MAC os = true
          ∧ (∃ t, pendingRequest effs = Some (ESingleShot t))
          ∧ readsOf effs = []
          ∧ timersOf effs = 1
          ∧ _isJobRunning j' = _isJobRunning j
          ∧ _retryOnKeyChainError j = true
          ∧ _retryOnKeyChainError j' = false)).
Proof.
  slot_unfold.
  destruct incoming as [r|]; simpl;
    [| do 2 eexists; (split; [reflexivity|]); split; [done|]; by left].
  destruct (bool_decide (error r = NoError)
            && bool_decide (0 < length (binaryData r))); simpl.
  - destruct (Q_OS_WIN os) eqn:Hwin; simpl; [case_decide; simpl|];
      do 2 eexists; (split; [reflexivity|]); (split; [done|]);
      first [ by left
            | right; left; split; [done|];
              split; [by do 3 eexists|]; by repeat split ].
  - destruct (Q_OS_UNIX_not_MAC os) eqn:Hux; simpl;
      [destruct (negb (insecureFallback r)); simpl;
       [destruct (_retryOnKeyChainError j) eqn:Hperm; simpl;
        [destruct (bool_decide (error r = NoBackendAvailable)
                   || bool_decide (error r = OtherError)); simpl|]|]|];
      try (destruct (bool_decide (error r ≠ EntryNotFound)
                     || bool_decide (error r = EntryNotFound)
                        && bool_decide (_chunkCount j = 0)); simpl);
      do 2 eexists; (split; [reflexivity|]); (split; [done|]);
      first [ by left
            | right; right; split; [done|];
              split; [by eexists|]; by repeat split ].
Qed.

Lemma os_exclusive : Q_OS_WIN os = true → Q_OS_UNIX_not_MAC os = true → False.
Proof. by destruct os. Qed.

Lemma read_loop_bounded (fuel : nat) :
  ∀ (b : B) j last,
    _isJobRunning j = true →
    ((∃ s k i, pendingRequest last = Some (EStartRead s k i))
     ∧ readBudget os MaxChunks j ≤ fuel)
    ∨ ((∃ t, pendingRequest last = Some (ESingleShot t))
       ∧ Q_OS_UNIX_not_MAC os = true
       ∧ _retryOnKeyChainError j = false
       ∧ 2 ≤ fuel) →
    ∃ b' j' trace,
      loopR fuel b j last = Some (b', j', trace)
      ∧ _isJobRunning j' = false
      ∧ writesOf trace = []
      ∧ timersOf trace
          ≤ (if Q_OS_UNIX_not_MAC os && _retryOnKeyChainError j
             then 1 else 0)
      ∧ length (readsOf trace)
          ≤ match pendingRequest last with
            | Some (ESingleShot _) => 1
            | _ => readsLeft os MaxChunks j
            end.
Proof.
  induction fuel as [|fuel IH]; intros b j last Hrun Hcase.
  { destruct Hcase as [[_ Hf]|(_ & _ & _ & Hf)];
      [unfold readBudget in Hf|]; lia. }
  destruct Hcase as [[(s & k & i & Hpend) Hfuel]
                    |((t & Hpend) & Hux & Hperm & Hfuel)].
  - destruct (readPassword b s k i) as [b1 [[e es] d]] eqn:Hrp.
    erewrite processEvents_step;
      [| exact Hrun | exact Hpend | by apply deliver_read ].
    destruct (slotR_cases (Some (mkKJob k e es d i)) j)
      as (j1 & effs & Hslot & Hw
          & [(Hr1 & Hp1 & Hrd & Htm)
            |[(Hwin & (s' & k' & i' & Hp1 & Hrd) & Htm & Hr1 & Hc1 & Hlt1
               & Hperm1)
             |(Hux & (t & Hp1) & Hrd & Htm & Hr1 & Hperm0 & Hperm1)]]).
    + rewrite Hslot. cbn [fst snd]. rewrite processEvents_done by done.
      do 3 eexists. split; [reflexivity|].
      rewrite app_nil_r, Hw, Hrd, Htm, Hpend.
      repeat split; try done; simpl; lia.
    + rewrite Hslot. cbn [fst snd].
      assert (Hnux : Q_OS_UNIX_not_MAC os = false).
      { destruct (Q_OS_UNIX_not_MAC os) eqn:E; [|done].
        by destruct (os_exclusive Hwin E). }
      destruct (IH b1 j1 effs) as
        (b' & j' & tr & Hloop & Hrun' & Hw' & Htm' & Hrd');
        [congruence
        | left; split; [by do 3 eexists|];
          unfold readBudget in *; rewrite Hwin, Hnux in *; simpl in *; lia
        |].
      rewrite Hloop. do 3 eexists. split; [reflexivity|].
      rewrite writesOf_app, timersOf_app, readsOf_app, Hw, Hw', Htm, Hrd.
      rewrite Hpend. rewrite Hp1 in Hrd'.
      unfold readsLeft in *. rewrite Hwin, Hnux in *. simpl in *.
      repeat split; try done; lia.
    + rewrite Hslot. cbn [fst snd].
      assert (Hnwin : Q_OS_WIN os = false).
      { destruct (Q_OS_WIN os) eqn:E; [|done].
        by destruct (os_exclusive E Hux). }
      destruct (IH b1 j1 effs) as
        (b' & j' & tr & Hloop & Hrun' & Hw' & Htm' & Hrd');
        [congruence
        | right; split; [by eexists|];
          unfold readBudget in *; rewrite Hnwin, Hux, Hperm0 in *;
          simpl in *; repeat split; try done; lia
        |].
      rewrite Hloop. do 3 eexists. split; [reflexivity|].
      rewrite writesOf_app, timersOf_app, readsOf_app, Hw, Hw', Htm, Hrd.
      rewrite Hpend. rewrite Hp1 in Hrd'.
      unfold readsLeft in *.
      rewrite Hnwin, Hux, Hperm0, ?Hperm1 in *. simpl in *.
      repeat split; try done; lia.
  - erewrite processEvents_step;
      [| exact Hrun | exact Hpend | apply deliver_timer ].
    rewrite startR_eq. cbn [fst snd].
    assert (Hnwin : Q_OS_WIN os = false).
    { destruct (Q_OS_WIN os) eqn:E; [|done].
      by destruct (os_exclusive E Hux). }
    match goal with
    | |- context [processEvents _ _ fuel b ?j1 ?l1] =>
        destruct (IH b j1 l1) as
          (b' & j' & tr & Hloop & Hrun' & Hw' & Htm' & Hrd');
          [done
          | left; split; [by do 3 eexists|];
            unfold readBudget; simpl; rewrite Hnwin, Hux, Hperm; simpl; lia
          |]
    end.
    rewrite Hloop. do 3 eexists. split; [reflexivity|].
    cbn [app writesOf timersOf readsOf length]. rewrite Hpend.
    unfold readsLeft in *. simpl in Htm', Hrd'.
    rewrite Hnwin, Hux, Hperm in *. simpl in *.
    repeat split; try done; lia.
Qed.

(** X5: on any backend, whatever it reports, [ReadJob::startAwait]
    returns once [MaxChunks + 3] events have been served.  The job has
    started no write; it has armed at most one timer, and none without
    the retry block; it has asked for at most [max 1 MaxChunks] keys
    where the build splits, two with the retry block, one otherwise.
    The result is [true] exactly when no error is recorded, and a job
    that failed holds no chunk and an empty buffer. *)
Theorem read_job_bounded (fuel : nat) (b : B) (j : Job)
    (Hfuel : MaxChunks + 3 ≤ fuel) :
  ∃ ok b' j' trace,
    ReadJob_startAwait os MaxChunks keychainKey fuel b j
      = Some (ok, b', j', trace)
    ∧ (ok = true ↔ _error j' = NoError)
    ∧ (ok = false → _chunkBuffer j' = [] ∧ _chunkCount j' = 0)
    ∧ _isJobRunning j' = false
    ∧ writesOf trace = []
    ∧ timersOf trace ≤ (if Q_OS_UNIX_not_MAC os then 1 else 0)
    ∧ length (readsOf trace)
        ≤ (if Q_OS_WIN os then 1 `max` MaxChunks
           else if Q_OS_UNIX_not_MAC os then 2 else 1).
Proof.
  unfold ReadJob_startAwait. rewrite startR_eq.
  match goal with
  | |- context [processEvents _ _ fuel b ?j1 ?l1] =>
      destruct (read_loop_bounded fuel b j1 l1) as
        (b' & j' & tr & Hloop & Hrun' & Hw' & Htm' & Hrd');
        [done
        | left; split; [by do 3 eexists|];
          unfold readBudget; simpl;
          destruct (Q_OS_WIN os), (Q_OS_UNIX_not_MAC os),
            (_retryOnKeyChainError j); simpl; lia
        |]
  end.
  rewrite Hloop.
  unfold readsLeft in Hrd'. simpl in Htm', Hrd'.
  assert (Hex : Q_OS_WIN os = true → Q_OS_UNIX_not_MAC os = true → False)
    by apply os_exclusive.
  unfold ReadJob_awaitResult.
  destruct (decide (_error j' = NoError)) as [He|He];
    do 4 eexists; (split; [reflexivity|]);
    cbn [app writesOf timersOf readsOf length];
    (split; [done|]); (split; [done|]); (split; [done|]);
    (split; [done|]);
    destruct (Q_OS_WIN os), (Q_OS_UNIX_not_MAC os),
      (_retryOnKeyChainError j); simpl in *; try (split; lia);
    by destruct Hex.
Qed.

End AnyBackend.

(** ** A write that fails part-way *)

Section PartialWrite.
Variable os : OS.
Variables ChunkSize MaxChunks : nat.
Variable keychainKey : string → string → string → string.
Context {B : Type} `{!Backend B}.

#[local] Abbreviation slotW :=
  (slotWriteJobDone os ChunkSize MaxChunks keychainKey).
#[local] Abbreviation loopW := (processEvents slotW (mret tt)).

Lemma slotW_error (j : Job) (w : KJob) :
  error w ≠ NoError →
  slotW (Some w) j
    = (tt,
       set_isJobRunning false
         (set_chunkBuffer []
            (set_errorString (errorString w) (set_error (error w) j))),
       [ECallKey (Some w); EFinished; EDeleteLater (Some w)]).
Proof.
  intros He. slot_unfold. simpl. rewrite decide_True by done. reflexivity.
Qed.

Lemma writeChunks_front (cs : nat) (data : QByteArray) (service : string)
    (K : nat → string) (fb : bool) (b : B) (i c : nat) :
  writeChunks cs data service K fb b i (S c)
    = writeChunks cs data service K fb
        (writePassword b service (K i) (chunkAt cs data i) fb).1 (S i) c.
Proof. reflexivity. Qed.

Lemma write_loop_fail (data : QByteArray) (k service : string)
    (account : option Account) (fb : bool) (e : Error) (es : string) :
  let cs := cutSize os ChunkSize data in
  let n := chunkTotal cs (length data) `min` MaxChunks in
  let K := deriveKey keychainKey k account false in
  0 < cs → e ≠ NoError →
  ∀ d fuel i b j last,
    _isJobRunning j = true → _chunkCount j = S i →
    _chunkBuffer j = drop (S i * cs) data →
    _key j = k → _account j = account → _serviceName j = service →
    _insecureFallback j = fb →
    pendingRequest last
      = Some (EStartWrite service (K i) (chunkAt cs data i) fb) →
    i + d < n → d < fuel →
    (∀ c, c < d →
       (writePassword (writeChunks cs data service K fb b i c) service
          (K (i + c)) (chunkAt cs data (i + c)) fb).2.1 = NoError) →
    (writePassword (writeChunks cs data service K fb b i d) service
       (K (i + d)) (chunkAt cs data (i + d)) fb).2 = (e, es) →
    ∃ j' trace,
      loopW fuel b j last
        = Some (writeChunks cs data service K fb b i (S d), j', trace)
      ∧ writesOf trace = (λ c, (K c, chunkAt cs data c)) <$> seq (S i) d
      ∧ _error j' = e
      ∧ _errorString j' = es
      ∧ _isJobRunning j' = false
      ∧ _chunkBuffer j' = [].
Proof.
  intros cs n K Hcs Hne d.
  induction d as [|d IH];
    intros fuel i b j last Hrun Hcnt Hbuf Hk Ha Hs Hf Hpend Hi Hfuel Hok Hfail;
    (destruct fuel as [|fuel]; [lia|]).
  - rewrite Nat.add_0_r in Hfail.
    change (writeChunks cs data service K fb b i 0) with b in Hfail.
    destruct (writePassword b service (K i) (chunkAt cs data i) fb)
      as [b1 [e' es']] eqn:Hwp.
    simpl in Hfail. injection Hfail as -> ->.
    erewrite processEvents_step;
      [| exact Hrun | exact Hpend | by apply deliver_write ].
    rewrite slotW_error by done. cbn [fst snd].
    rewrite processEvents_done by done.
    do 2 eexists.
    split; [unfold writeChunks; simpl; by rewrite Hwp|done].
  - pose proof (Hok 0 ltac:(lia)) as Hok0.
    rewrite Nat.add_0_r in Hok0.
    change (writeChunks cs data service K fb b i 0) with b in Hok0.
    destruct (writePassword b service (K i) (chunkAt cs data i) fb)
      as [b1 [e' es']] eqn:Hwp.
    simpl in Hok0. subst e'.
    set (w := mkKJob (K i) NoError es' (chunkAt cs data i) fb).
    assert (Hw : incomingOk (Some w)) by (by intros ? [= <-]).
    erewrite processEvents_step;
      [| exact Hrun | exact Hpend | by apply deliver_write ].
    fold w.
    assert (Hnemp : _chunkBuffer j ≠ []).
    { rewrite Hbuf. intros Hemp. apply chunk_done in Hemp; [|done].
      unfold n in Hi. lia. }
    destruct (slotW_split os ChunkSize MaxChunks keychainKey
                data (S i) (Some w) j) as
      (j' & Hslot & Hc' & Hk' & Ha' & Hs' & Hf' & He' & Hlim); try done.
    { intros Hwin. exfalso. apply Hnemp. rewrite Hbuf. apply drop_ge.
      unfold cs, cutSize. rewrite Hwin. lia. }
    rewrite Hslot. cbn [fst snd].
    rewrite Hcnt, Hk, Ha, Hs, Hf in *.
    destruct (decide (MaxChunks < S (S i))) as [Hmax|Hmax];
      [unfold n in Hi; lia|].
    destruct Hlim as [Hr' Hb'].
    destruct (IH fuel (S i) b1 j'
                [EStartWrite service (K (S i)) (chunkAt cs data (S i)) fb;
                 EDeleteLater (Some w)])
      as (j'' & tr & Hloop & Hwr & Herr & Hes & Hrun' & Hbuf');
      try done; try lia; [congruence | | |].
    + intros c Hc. pose proof (Hok (S c) ltac:(lia)) as Hsc.
      rewrite writeChunks_front, Hwp in Hsc.
      replace (i + S c) with (S i + c) in Hsc by lia. exact Hsc.
    + rewrite writeChunks_front, Hwp in Hfail.
      replace (i + S d) with (S i + d) in Hfail by lia. exact Hfail.
    + unfold K, cs in Hloop. rewrite Hloop.
      do 2 eexists. split.
      * rewrite (writeChunks_front _ _ _ _ _ b i (S d)), Hwp. reflexivity.
      * split; [|done]. cbn [app writesOf]. rewrite Hwr. reflexivity.
Qed.

(** X6: when the backend accepts the first [t] chunks of a write job and
    refuses chunk [t], [startAwait] returns [false] with that error kind
    and message recorded; the job has started the writes of the chunks
    0 to [t] in order and no other, and the backend is left as those
    writes made it: the chunks written before the failure stay. *)
Theorem write_fails_at (fuel t : nat) (b : B) (j : Job)
    (e : Error) (es : string)
    (Hcs : 0 < ChunkSize)
    (Hcnt : _chunkCount j = 0)
    (Hne : e ≠ NoError)
    (Ht : t < chunkTotal (cutSize os ChunkSize (_chunkBuffer j))
                (length (_chunkBuffer j)) `min` MaxChunks)
    (Hfuel : t < fuel)
    (Hok : ∀ c, c < t →
       (writePassword
          (writeChunks (cutSize os ChunkSize (_chunkBuffer j))
             (_chunkBuffer j) (_serviceName j)
             (deriveKey keychainKey (_key j) (_account j) false)
             (_insecureFallback j) b 0 c)
          (_serviceName j)
          (deriveKey keychainKey (_key j) (_account j) false c)
          (chunkAt (cutSize os ChunkSize (_chunkBuffer j))
             (_chunkBuffer j) c)
          (_insecureFallback j)).2.1 = NoError)
    (Hfail :
       (writePassword
          (writeChunks (cutSize os ChunkSize (_chunkBuffer j))
             (_chunkBuffer j) (_serviceName j)
             (deriveKey keychainKey (_key j) (_account j) false)
             (_insecureFallback j) b 0 t)
          (_serviceName j)
          (deriveKey keychainKey (_key j) (_account j) false t)
          (chunkAt (cutSize os ChunkSize (_chunkBuffer j))
             (_chunkBuffer j) t)
          (_insecureFallback j)).2 = (e, es)) :
  let data := _chunkBuffer j in
  let cs := cutSize os ChunkSize data in
  let K := deriveKey keychainKey (_key j) (_account j) false in
  ∃ j' trace,
    WriteJob_startAwait os ChunkSize MaxChunks keychainKey fuel b j
      = Some (false,
              writeChunks cs data (_serviceName j) K (_insecureFallback j)
                b 0 (S t),
              j', trace)
    ∧ writesOf trace = (λ c, (K c, chunkAt cs data c)) <$> seq 0 (S t)
    ∧ _error j' = e
    ∧ _errorString j' = es
    ∧ _isJobRunning j' = false
    ∧ _chunkBuffer j' = [].
Proof.
  intros data cs K.
  assert (Hdata : data ≠ []).
  { intros Hemp. unfold data in Hemp. rewrite Hemp in Ht. simpl in Ht.
    rewrite chunkTotal_empty in Ht. lia. }
  assert (Hcs' : 0 < cs) by (by apply cutSize_pos).
  unfold WriteJob_startAwait. rewrite startW_eq.
  destruct (slotW_split os ChunkSize MaxChunks keychainKey data 0 None
              (set_isJobRunning true j)) as
    (j1 & Hslot & Hc' & Hk' & Ha' & Hs' & Hf' & He' & Hlim); try done.
  rewrite Hslot. simpl in Hc', Hk', Ha', Hs', Hf', He', Hlim. simpl.
  rewrite Hcnt in *.
  destruct (decide (MaxChunks < 1)) as [Hmax|Hmax]; [lia|].
  destruct Hlim as [Hr' Hb'].
  destruct (write_loop_fail data (_key j) (_serviceName j) (_account j)
              (_insecureFallback j) e es Hcs' Hne t fuel 0 b j1
              [EStartWrite (_serviceName j) (K 0) (chunkAt cs data 0)
                 (_insecureFallback j); EDeleteLater None])
    as (j' & tr & Hloop & Hwr & Herr & Hes & Hrun' & Hbuf');
    try done.
  unfold K, cs in Hloop. rewrite Hloop.
  unfold WriteJob_awaitResult. rewrite decide_True by (by rewrite Herr).
  do 2 eexists. split; [reflexivity|].
  split; [|done]. cbn [app writesOf]. fold cs K. rewrite Hwr. reflexivity.
Qed.

End PartialWrite.

(** ** Writing over an earlier secret *)

Lemma storedPrefix_spec (st : Store) (service : string) (K : nat → string)
    (D : nat → QByteArray) (p : nat) :
  ∀ i todo,
    (∀ c, i ≤ c < i + p → st !! (service, K c) = Some (D c) ∧ D c ≠ []) →
    (p < todo → st !! (service, K (i + p)) = None) →
    p ≤ todo →
    storedPrefix st service K i todo = D <$> seq i p.
Proof.
  induction p as [|p IH]; intros i todo Hin Hend Hle.
  - destruct todo as [|todo]; [done|].
    rewrite Nat.add_0_r in Hend. simpl. by rewrite Hend by lia.
  - destruct todo as [|todo]; [lia|].
    destruct (Hin i ltac:(lia)) as [Hl Hne].
    simpl. rewrite Hl, (isEmpty_false _ Hne). f_equal.
    apply IH; [|intros Hp|lia].
    + intros c Hc. apply Hin. lia.
    + replace (S i + p) with (i + S p) by lia. apply Hend. lia.
Qed.

Lemma concat_chunks_from (cs : nat) (data : QByteArray) (a k : nat) :
  concat (chunkAt cs data <$> seq a k) = take (k * cs) (drop (a * cs) data).
Proof.
  induction k as [|k IH]; [done|].
  rewrite seq_S, fmap_app, concat_app, IH. simpl. rewrite app_nil_r.
  unfold chunkAt.
  replace ((a + k) * cs) with (a * cs + k * cs) by lia.
  rewrite <- drop_drop, take_take_drop. f_equal. lia.
Qed.

Lemma fmap_seq_ext {A : Type} (f g : nat → A) (a k : nat) :
  (∀ c, a ≤ c < a + k → f c = g c) → f <$> seq a k = g <$> seq a k.
Proof.
  revert a. induction k as [|k IH]; intros a Hfg; [done|].
  simpl. rewrite Hfg by lia. f_equal. apply IH. intros c Hc. apply Hfg. lia.
Qed.

Section Overwrite.
Variable os : OS.
Variables ChunkSize MaxChunks : nat.
Variable keychainKey : string → string → string → string.
Variable appName : string.

#[local] Abbreviation awaitW :=
  (WriteJob_startAwait os ChunkSize MaxChunks keychainKey).
#[local] Abbreviation awaitR := (ReadJob_startAwait os MaxChunks keychainKey).
#[local] Abbreviation newW := (WriteJob_ctor appName).
#[local] Abbreviation newR := (ReadJob_ctor appName).

(** X7: where the build splits, writing a secret over an earlier one
    under the same key replaces the chunks it covers and leaves the
    others: a read job then returns the new secret (cut at the limit)
    followed by the chunks of the old one that lie beyond the new one's
    last chunk.  The new secret comes back alone exactly when it takes at
    least as many chunks as the old one. *)
Theorem overwrite_then_read (fuel : nat) (st : Store)
    (i1 r1 i2 r2 ir rr : bool) (account : option Account) (k : string)
    (old new : QByteArray)
    (Hwin : Q_OS_WIN os = true)
    (Hcs : 0 < ChunkSize) (Hmc : 0 < MaxChunks) (Hfuel : MaxChunks ≤ fuel)
    (Hold : old ≠ []) (Hnew : new ≠ [])
    (Hkeys : keysDistinct keychainKey account)
    (Hfresh :
       (chunkTotal ChunkSize (length old) `min` MaxChunks)
         `max` (chunkTotal ChunkSize (length new) `min` MaxChunks)
         < MaxChunks →
       st !! (appName,
              deriveKey keychainKey k account false
                ((chunkTotal ChunkSize (length old) `min` MaxChunks)
                   `max` (chunkTotal ChunkSize (length new)
                            `min` MaxChunks)))
         = None) :
  let n1 := chunkTotal ChunkSize (length old) `min` MaxChunks in
  let n2 := chunkTotal ChunkSize (length new) `min` MaxChunks in
  ∃ st1 jw1 tw1 st2 jw2 tw2 jr tr,
    awaitW fuel st (newW i1 r1 account k old) = Some (true, st1, jw1, tw1)
    ∧ awaitW fuel st1 (newW i2 r2 account k new) = Some (true, st2, jw2, tw2)
    ∧ awaitR fuel st2 (newR ir rr account k false) = Some (true, st2, jr, tr)
    ∧ _error jr = NoError
    ∧ _chunkBuffer jr
        = take (ChunkSize * MaxChunks) new
          ++ take ((n1 - n2) * ChunkSize) (drop (n2 * ChunkSize) old)
    ∧ (n1 ≤ n2 ↔ _chunkBuffer jr = take (ChunkSize * MaxChunks) new).
Proof.
  intros n1 n2. fold n1 n2 in Hfresh.
  set (K := deriveKey keychainKey k account false) in *.
  destruct (write_run os ChunkSize MaxChunks keychainKey fuel st
              (newW i1 r1 account k old) Hcs Store_writesOk eq_refl eq_refl
              Hfuel)
    as (st1 & jw1 & tw1 & Hw1 & _ & Hst1 & _).
  simpl in Hst1. unfold cutSize in Hst1. rewrite Hwin in Hst1.
  fold n1 K in Hst1.
  destruct (write_run os ChunkSize MaxChunks keychainKey fuel st1
              (newW i2 r2 account k new) Hcs Store_writesOk eq_refl eq_refl
              Hfuel)
    as (st2 & jw2 & tw2 & Hw2 & _ & Hst2 & _).
  simpl in Hst2. unfold cutSize in Hst2. rewrite Hwin in Hst2.
  fold n2 K in Hst2.
  assert (Hinj : ∀ a b, K a = K b → a = b).
  { intros a b. by apply deriveKey_inj. }
  assert (Hn1 : 0 < n1 ∧ n1 ≤ chunkTotal ChunkSize (length old)).
  { assert (H1 : drop (0 * ChunkSize) old ≠ []) by done.
    apply chunk_pending in H1; [|done]. unfold n1. lia. }
  assert (Hn2 : 0 < n2 ∧ n2 ≤ chunkTotal ChunkSize (length new)).
  { assert (H1 : drop (0 * ChunkSize) new ≠ []) by done.
    apply chunk_pending in H1; [|done]. unfold n2. lia. }
  set (D := λ c, if decide (c < n2) then chunkAt ChunkSize new c
                 else chunkAt ChunkSize old c).
  assert (Hprefix : storedPrefix st2 appName K 0 MaxChunks
                    = D <$> seq 0 (n1 `max` n2)).
  { apply storedPrefix_spec; [| |unfold n1, n2; lia].
    - intros c Hc. unfold D. destruct (decide (c < n2)) as [Hlt|Hge].
      + split.
        * rewrite Hst2. apply Store_chunks_lookup; [|done].
          intros a b _ _. apply Hinj.
        * apply chunkAt_nonempty; [done|lia].
      + split.
        * rewrite Hst2, Store_chunks_other.
          -- rewrite Hst1. apply Store_chunks_lookup; [|lia].
             intros a b _ _. apply Hinj.
          -- intros c' Hc' Heq. apply Hinj in Heq. lia.
        * apply chunkAt_nonempty; [done|lia].
    - intros Hlt. simpl. rewrite Hst2, Store_chunks_other.
      + rewrite Hst1, Store_chunks_other; [by apply Hfresh|].
        intros c' Hc' Heq. apply Hinj in Heq. lia.
      + intros c' Hc' Heq. apply Hinj in Heq. lia. }
  destruct (read_store_run os MaxChunks keychainKey fuel st2
              (newR ir rr account k false) Hwin Hmc Hfuel eq_refl)
    as (jr & tr & Hr & Hb & _ & Hrun & _).
  simpl in Hr, Hb. fold K in Hr, Hb.
  assert (Hl0 : st2 !! (appName, K 0) = Some (chunkAt ChunkSize new 0)).
  { rewrite Hst2. apply Store_chunks_lookup; [|lia].
    intros a b _ _. apply Hinj. }
  rewrite Hl0 in Hr.
  assert (Hbuf : _chunkBuffer jr
            = take (ChunkSize * MaxChunks) new
              ++ take ((n1 - n2) * ChunkSize) (drop (n2 * ChunkSize) old)).
  { rewrite Hb, Hprefix.
    replace (n1 `max` n2) with (n2 + (n1 - n2)) by lia.
    rewrite seq_app, fmap_app, concat_app. f_equal.
    - rewrite (fmap_seq_ext D (chunkAt ChunkSize new)).
      + rewrite concat_chunks. by apply take_all_chunks.
      + intros c Hc. unfold D. by rewrite decide_True by lia.
    - rewrite (fmap_seq_ext D (chunkAt ChunkSize old)).
      + apply concat_chunks_from.
      + intros c Hc. unfold D. by rewrite decide_False by lia. }
  assert (Herr : _error jr = NoError).
  { unfold ReadJob_startAwait in Hr. rewrite startR_eq in Hr.
    destruct (processEvents _ _ _ _ _ _) as [[[b' j'] tr']|]; [|done].
    unfold ReadJob_awaitResult in Hr.
    destruct (decide (_error j' = NoError)) as [He|He]; [|done].
    by injection Hr as _ <- _. }
  exists st1, jw1, tw1, st2, jw2, tw2, jr, tr.
  repeat split; try done.
  - intros Hle. rewrite Hbuf.
    replace (n1 - n2) with 0 by lia. by rewrite take_0, app_nil_r.
  - intros Heq. rewrite Hbuf in Heq.
    rewrite <- (app_nil_r (take (ChunkSize * MaxChunks) new)) in Heq at 2.
    apply app_inv_head in Heq.
    apply take_nil_inv in Heq as [Hz|Hd]; [nia|].
    apply chunk_done in Hd; [lia|done].
Qed.

End Overwrite.

(** ** Jobs built without an account *)

Section KeyOnly.
Variable os : OS.
Variables ChunkSize MaxChunks : nat.
Variable keychainKey : string → string → string → string.
Variables appName applicationName : string.

Lemma WriteJob_ctor_key_eq (insecure retry : bool) (k : string)
    (data : QByteArray) :
  WriteJob_ctor_key os appName applicationName insecure retry k data
    = WriteJob_ctor appName insecure retry None
        (if Q_OS_WIN os then applicationName +:+ "_" +:+ k else k) data.
Proof. by destruct os. Qed.

Lemma ReadJob_ctor_key_eq (insecure retry : bool) (k : string) :
  ReadJob_ctor_key os appName applicationName insecure retry k
    = ReadJob_ctor appName insecure retry None
        (if Q_OS_WIN os then applicationName +:+ "_" +:+ k else k) false.
Proof. by destruct os. Qed.

(** X8: jobs built by the constructors that take no account store a
    non-empty secret within the bound under the key itself, or under the
    application name, an underscore and the key where [Q_OS_WIN] holds,
    with a dot and the index appended from the second chunk on; a read
    job built the same way returns the secret, provided the store holds
    nothing under the key after the last chunk. *)
Theorem key_only_round_trip (fuel : nat) (st : Store) (iw rw ir rr : bool)
    (k : string) (secret : QByteArray)
    (Hcs : 0 < ChunkSize) (Hmc : 0 < MaxChunks) (Hfuel : MaxChunks ≤ fuel)
    (Hne : secret ≠ [])
    (Hlen : Q_OS_WIN os = true → length secret ≤ ChunkSize * MaxChunks)
    (Hfresh : Q_OS_WIN os = true →
              chunkTotal ChunkSize (length secret) < MaxChunks →
              st !! (appName,
                     (applicationName +:+ "_" +:+ k) +:+ "."
                       +:+ number (chunkTotal ChunkSize (length secret)))
                = None) :
  let name := if Q_OS_WIN os then applicationName +:+ "_" +:+ k else k in
  let n := if Q_OS_WIN os then chunkTotal ChunkSize (length secret) else 1 in
  ∃ st1 jw tw jr tr,
    WriteJob_startAwait os ChunkSize MaxChunks keychainKey fuel st
      (WriteJob_ctor_key os appName applicationName iw rw k secret)
      = Some (true, st1, jw, tw)
    ∧ (writesOf tw).*1
        = (λ c, if decide (c = 0) then name
                else name +:+ "." +:+ number c) <$> seq 0 n
    ∧ ReadJob_startAwait os MaxChunks keychainKey fuel st1
        (ReadJob_ctor_key os appName applicationName ir rr k)
        = Some (true, st1, jr, tr)
    ∧ _error jr = NoError
    ∧ _chunkBuffer jr = secret.
Proof.
  intros name n. rewrite WriteJob_ctor_key_eq, ReadJob_ctor_key_eq.
  fold name.
  assert (Hkeys : keysDistinct keychainKey None) by (by intros a Ha).
  destruct (Q_OS_WIN os) eqn:Hwin.
  - specialize (Hlen eq_refl). specialize (Hfresh eq_refl).
    assert (Hn : chunkTotal ChunkSize (length secret) ≤ MaxChunks).
    { apply chunkTotal_le; [done|lia]. }
    assert (H0 : 0 < chunkTotal ChunkSize (length secret)).
    { assert (H1 : drop (0 * ChunkSize) secret ≠ []) by done.
      by apply chunk_pending in H1. }
    destruct (round_trip_split os ChunkSize MaxChunks keychainKey appName
                fuel st iw rw ir rr None name secret)
      as (st1 & jw & tw & jr & tr & Hw & _ & Hwr & Hr & Her & Hb); try done.
    { rewrite Nat.min_l by done. intros Hlt. unfold deriveKey.
      rewrite decide_False by lia. by apply Hfresh. }
    rewrite Nat.min_l in Hwr by done.
    exists st1, jw, tw, jr, tr. repeat split; try done.
    + rewrite Hwr, <- list_fmap_compose. reflexivity.
    + rewrite Hb. apply take_ge. lia.
  - destruct (round_trip_whole os ChunkSize MaxChunks keychainKey appName
                fuel st iw rw ir rr None name secret)
      as (st1 & jw & tw & jr & tr & Hw & _ & Hwr & Hr & Her & Hb); try done.
    exists st1, jw, tw, jr, tr. repeat split; try done.
    by rewrite Hwr.
Qed.

End KeyOnly.

(** ** The further theorems at concrete jobs *)

(** [read_missing_key] on the empty store. *)
Lemma read_missing_key_witness :
  ∃ j' trace,
    ReadJob_startAwait Linux 10 sampleKeychainKey 1 (∅ : Store) certReader
      = Some (false, ∅, j', trace)
    ∧ _error j' = EntryNotFound
    ∧ readsOf trace = ["cert"].
Proof.
  destruct (read_missing_key Linux 10 sampleKeychainKey 1 (∅ : Store)
              certReader)
    as (j' & tr & Hr & He & _ & _ & _ & Hrd & _).
  - lia.
  - apply lookup_empty.
  - exists j', tr. split; [exact Hr|]. split; [exact He|exact Hrd].
Defined.

(** [read_single_entry] on a build that does not split. *)
Lemma read_single_entry_witness :
  ∃ j' trace,
    ReadJob_startAwait MacOS 10 sampleKeychainKey 1 gapStore certReader
      = Some (true, gapStore, j', trace)
    ∧ _chunkBuffer j' = [x01]
    ∧ readsOf trace = ["cert"].
Proof.
  destruct (read_single_entry MacOS 10 sampleKeychainKey 1 gapStore
              certReader [x01])
    as (j' & tr & Hr & _ & Hb & _ & Hrd & _).
  - reflexivity.
  - lia.
  - reflexivity.
  - vm_compute. reflexivity.
  - exists j', tr. split; [exact Hr|]. split; [exact Hb|exact Hrd].
Defined.

(** [read_ordered_prefix] on a store with a gap after the second chunk. *)
Lemma read_ordered_prefix_witness :
  ∃ j' trace,
    ReadJob_startAwait Windows 10 sampleKeychainKey 10 gapStore certReader
      = Some (true, gapStore, j', trace)
    ∧ _chunkBuffer j' = [x01; x02]
    ∧ readsOf trace = ["cert"; "cert.1"; "cert.2"].
Proof.
  destruct (read_ordered_prefix Windows 10 sampleKeychainKey 10 gapStore
              certReader)
    as (j' & tr & Hr & Hb & _ & _ & Hrd & _).
  - reflexivity.
  - lia.
  - lia.
  - reflexivity.
  - exists j', tr. split; [|split].
    + rewrite Hr. vm_compute. reflexivity.
    + rewrite Hb. vm_compute. reflexivity.
    + rewrite Hrd. vm_compute. reflexivity.
Defined.


(** [read_job_bounded] on a backend that is unavailable at first. *)
Lemma read_job_bounded_witness :
  ∃ ok b' j' trace,
    ReadJob_startAwait Linux 10 sampleKeychainKey 13
      (mkScripted certStore [(NoBackendAvailable, "no backend")]) certReader
      = Some (ok, b', j', trace)
    ∧ timersOf trace ≤ 1
    ∧ length (readsOf trace) ≤ 2.
Proof.
  destruct (read_job_bounded Linux 10 sampleKeychainKey 13
              (mkScripted certStore [(NoBackendAvailable, "no backend")])
              certReader)
    as (ok & b' & j' & tr & Hr & _ & _ & _ & _ & Htm & Hrd).
  - lia.
  - exists ok, b', j', tr. split; [exact Hr|]. split; [exact Htm|exact Hrd].
Defined.

(** [write_fails_at] on a backend that refuses the second chunk. *)
Lemma write_fails_at_witness :
  ∃ b' j' trace,
    WriteJob_startAwait Windows 2 3 sampleKeychainKey 3 refusingBackend
      (certWriter [x01; x02; x03; x04; x05]) = Some (false, b', j', trace)
    ∧ store b' = {[ ("Nextcloud", "cert") := [x01; x02] ]}
    ∧ writesOf trace = [("cert", [x01; x02]); ("cert.1", [x03; x04])]
    ∧ _error j' = AccessDenied.
Proof.
  destruct (write_fails_at Windows 2 3 sampleKeychainKey 3 1 refusingBackend
              (certWriter [x01; x02; x03; x04; x05]) AccessDenied "denied")
    as (j' & tr & Hw & Hwr & He & _).
  - lia.
  - reflexivity.
  - discriminate.
  - vm_compute. lia.
  - lia.
  - intros c Hc. assert (c = 0) as -> by lia. vm_compute. reflexivity.
  - vm_compute. reflexivity.
  - do 3 eexists. split; [exact Hw|]. split; [|split; [|exact He]].
    + vm_compute. reflexivity.
    + rewrite Hwr. vm_compute. reflexivity.
Defined.

(** [overwrite_then_read]: one byte written over three leaves the third. *)
Lemma overwrite_then_read_witness :
  ∃ st1 jw1 tw1 st2 jw2 tw2 jr tr,
    WriteJob_startAwait Windows 2 3 sampleKeychainKey 3 (∅ : Store)
      (certWriter [x01; x02; x03]) = Some (true, st1, jw1, tw1)
    ∧ WriteJob_startAwait Windows 2 3 sampleKeychainKey 3 st1
        (certWriter [x07]) = Some (true, st2, jw2, tw2)
    ∧ ReadJob_startAwait Windows 3 sampleKeychainKey 3 st2 certReader
        = Some (true, st2, jr, tr)
    ∧ _chunkBuffer jr = [x07; x03].
Proof.
  destruct (overwrite_then_read Windows 2 3 sampleKeychainKey "Nextcloud"
              3 (∅ : Store) false true false true false true None "cert"
              [x01; x02; x03] [x07])
    as (st1 & jw1 & tw1 & st2 & jw2 & tw2 & jr & tr
        & Hw1 & Hw2 & Hr & _ & Hb & _).
  - reflexivity.
  - lia.
  - lia.
  - lia.
  - discriminate.
  - discriminate.
  - intros a Ha. discriminate.
  - intros _. apply lookup_empty.
  - exists st1, jw1, tw1, st2, jw2, tw2, jr, tr.
    split; [exact Hw1|]. split; [exact Hw2|]. split; [exact Hr|].
    rewrite Hb. vm_compute. reflexivity.
Defined.

(** [key_only_round_trip] under [Q_OS_WIN]. *)
Lemma key_only_round_trip_witness :
  ∃ st1 jw tw jr tr,
    WriteJob_startAwait Windows 2 3 sampleKeychainKey 3 (∅ : Store)
      (WriteJob_ctor_key Windows "Nextcloud" "nextcloud" false true "cert"
         [x01; x02; x03]) = Some (true, st1, jw, tw)
    ∧ (writesOf tw).*1 = ["nextcloud_cert"; "nextcloud_cert.1"]
    ∧ ReadJob_startAwait Windows 3 sampleKeychainKey 3 st1
        (ReadJob_ctor_key Windows "Nextcloud" "nextcloud" false true "cert")
        = Some (true, st1, jr, tr)
    ∧ _chunkBuffer jr = [x01; x02; x03].
Proof.
  destruct (key_only_round_trip Windows 2 3 sampleKeychainKey "Nextcloud"
              "nextcloud" 3 (∅ : Store) false true false true "cert"
              [x01; x02; x03])
    as (st1 & jw & tw & jr & tr & Hw & Hk & Hr & _ & Hb).
  - lia.
  - lia.
  - lia.
  - discriminate.
  - intros _. simpl. lia.
  - intros _ _. apply lookup_empty.
  - exists st1, jw, tw, jr, tr.
    split; [exact Hw|]. split; [|split; [exact Hr|exact Hb]].
    rewrite Hk. vm_compute. reflexivity.
Defined.
